(** * tidb-binlog: the loader's executor and the restore driver

    A shallow embedding of the executor of package [loader] (the second file
    of [src/unnamed/part_000]) and of [Restore.Start] of package [restore]
    ([src/restore/restore.go]).

    The database is an environment the code talks to.  Every call that leaves
    the process ([db.Begin], [Tx.Exec], [Tx.Commit], [Tx.Rollback], the logger,
    the latency histogram, [time.Sleep]) is recorded as an [event]; the answer
    of the database to a
    call is a function of the events so far, so the theorems hold for every
    database behaviour.  Code that runs inside one goroutine is a term of the
    free monad [act]; the goroutines of an [errgroup] are interleaved by a
    scheduler that is part of the environment as well. *)

From stdpp Require Import gmap strings list fin_maps.
From Stdlib Require Import ZArith Lia.

Local Open Scope Z_scope.


(** ** Errors ([github.com/juju/errors], [io.EOF]) *)

Module Errors.

(** An error value.  [Foreign] is an error made outside this code (the
    driver, the translator, the file system) with its text; [Traced e] is
    [errors.Trace(e)], which records the caller's location and keeps [e] as
    the previous error; [Errorf] is [errors.Errorf(format, operands...)]
    with its string operands and its error operand. *)
Inductive error : Type :=
| Foreign (text : string)
| EOF
| Traced (e : error)
| Errorf (format : string) (operands : list string) (e : error).

#[global] Instance error_eq_dec : EqDecision error.
Proof. solve_decision. Defined.

(** [errors.Trace(other)]: nil for nil. *)
Definition Trace (other : option error) : option error :=
  match other with
  | None => None
  | Some e => Some (Traced e)
  end.

(** A Go pair [(x, err)] where exactly one side is meaningful. *)
Inductive result (A : Type) : Type :=
| Ok (a : A)
| Err (e : error).
Arguments Ok {A} a.
Arguments Err {A} e.


End Errors.

(** ** Package [loader] *)

Module Loader.
Import Errors.

(** *** Change records *)

(** A value bound to a statement placeholder ([interface{}] in the source). *)
Inductive value : Type :=
| VNil
| VInt (z : Z)
| VStr (s : string).

#[global] Instance value_eq_dec : EqDecision value.
Proof. solve_decision. Defined.

#[global] Instance value_countable : Countable value.
Proof.
  refine (inj_countable'
    (fun v => match v with
              | VNil => inl ()
              | VInt z => inr (inl z)
              | VStr s => inr (inr s)
              end)
    (fun x => match x with
              | inl _ => VNil
              | inr (inl z) => VInt z
              | inr (inr s) => VStr s
              end) _).
  by intros [].
Defined.

(** Modelled from the spec: the kinds of a change record (the declaration
    of [DMLType] is not among the sources; the executor names these three). *)
Inductive DMLType : Type :=
| InsertDMLType
| UpdateDMLType
| DeleteDMLType.

#[global] Instance DMLType_eq_dec : EqDecision DMLType.
Proof. solve_decision. Defined.

#[global] Instance DMLType_countable : Countable DMLType.
Proof.
  refine (inj_countable'
    (fun t => match t with
              | InsertDMLType => 0%nat
              | UpdateDMLType => 1%nat
              | DeleteDMLType => 2%nat
              end)
    (fun n => match n with
              | O => InsertDMLType
              | S O => UpdateDMLType
              | _ => DeleteDMLType
              end) _).
  by intros [].
Defined.

(** Modelled from the spec: [tableInfo] (its declaration is not among the
    sources): the ordered columns of the table, which the executor reads as
    [info.columns], and the columns of the primary (or usable unique) key. *)
Record tableInfo : Type := {
  columns : list string;
  keyColumns : list string
}.

(** Modelled from the spec: a change record (the declaration of [DML] is
    not among the sources).  The executor reads [Database], [Table], [Tp],
    [Values] and [info]; [OldValues] is the spec's. *)
Record DML : Type := {
  Database : string;
  Table : string;
  Tp : DMLType;
  Values : gmap string value;
  OldValues : gmap string value;
  info : tableInfo
}.

(** A statement with its arguments. *)
Definition stmt : Type := string * list value.

(** *** The environment *)

Definition txid : Type := nat.

Inductive level : Type := LDebug | LWarn | LError.

(** An operand of a logger call. *)
Inductive logarg : Type :=
| LStr (s : string)
| LArgs (args : list value)
| LErr (e : error)
| LDMLs (dmls : list DML)
| LTypes (types : gmap DMLType (list DML)).

(** What happened: a call with its answer, a line of the logger, an
    observation of the histogram, a sleep, or the return of goroutine [id] of
    a group with the error [r] it handed to the group. *)
Inductive event : Type :=
| EvBegin (r : result txid)
| EvExec (t : txid) (query : string) (args : list value) (r : option error)
| EvCommit (t : txid) (r : option error)
| EvRollback (t : txid) (r : option error)
| EvLog (l : level) (format : option string) (operands : list logarg)
| EvObserve (name : string)
| EvSleep (d : Z)
| EvDone (id : nat) (r : option error).

Definition trace : Type := list event.

(** What the database answers and how goroutines are scheduled, given the
    events so far.  [schedule] gives, when a group of goroutines starts, the
    choices of the scheduler; when the choices run out the goroutines left
    run one after the other. *)
Record world : Type := {
  db_begin : trace -> result txid;
  db_exec : trace -> txid -> string -> list value -> option error;
  db_commit : trace -> txid -> option error;
  db_rollback : trace -> txid -> option error;
  schedule : trace -> list nat
}.

(** *** Code of one goroutine *)

Inductive act (A : Type) : Type :=
| Ret (a : A)
| Begin (k : result txid -> act A)
| Exec (t : txid) (query : string) (args : list value) (k : option error -> act A)
| Commit (t : txid) (k : option error -> act A)
| Rollback (t : txid) (k : option error -> act A)
| Log (l : level) (format : option string) (operands : list logarg) (k : act A)
| Observe (name : string) (k : act A).
Arguments Ret {A} a.
Arguments Begin {A} k.
Arguments Exec {A} t query args k.
Arguments Commit {A} t k.
Arguments Rollback {A} t k.
Arguments Log {A} l format operands k.
Arguments Observe {A} name k.

Fixpoint act_bind {A B : Type} (m : act A) (f : A -> act B) : act B :=
  match m with
  | Ret a => f a
  | Begin k => Begin (fun r => act_bind (k r) f)
  | Exec t q args k => Exec t q args (fun r => act_bind (k r) f)
  | Commit t k => Commit t (fun r => act_bind (k r) f)
  | Rollback t k => Rollback t (fun r => act_bind (k r) f)
  | Log l fmt ops k => Log l fmt ops (act_bind k f)
  | Observe name k => Observe name (act_bind k f)
  end.

Declare Scope act_scope.
Delimit Scope act_scope with act.
Bind Scope act_scope with act.
Notation "'do' x <- m ; k" := (act_bind m (fun x => k))
  (at level 10, x name, m at level 100, k at level 200) : act_scope.
Notation "m ;;; k" := (act_bind m (fun _ => k))
  (at level 100, k at level 200, right associativity) : act_scope.

(** [log.Debugf], [log.Errorf]: a format and its operands. *)
Definition logf (l : level) (format : string) (operands : list logarg) : act unit :=
  Log l (Some format) operands (Ret tt).
(** [log.Error]: operands only. *)
Definition logv (l : level) (operands : list logarg) : act unit :=
  Log l None operands (Ret tt).

(** [if vec != nil { vec.WithLabelValues(name).Observe(...) }]: one
    observation under [name] when the histogram is there; the elapsed time
    it carries is not modelled. *)
Definition observe (vec : bool) (name : string) : act unit :=
  if vec then Observe name (Ret tt) else Ret tt.

(** One call of the goroutine, answered by the world: the event it leaves
    and the rest of the code, or the returned value. *)
Definition step_act {A : Type} (w : world) (a : act A) (h : trace) : event * act A + A :=
  match a with
  | Ret x => inr x
  | Begin k => let r := db_begin w h in inl (EvBegin r, k r)
  | Exec t q args k => let r := db_exec w h t q args in inl (EvExec t q args r, k r)
  | Commit t k => let r := db_commit w h t in inl (EvCommit t r, k r)
  | Rollback t k => let r := db_rollback w h t in inl (EvRollback t r, k r)
  | Log l fmt ops k => inl (EvLog l fmt ops, k)
  | Observe name k => inl (EvObserve name, k)
  end.

Definition emit {A : Type} (ev : event) (r : A * trace) : A * trace :=
  (r.1, ev :: r.2).

(** The goroutine run alone from history [h]: its value and its events. *)
Fixpoint run_act {A : Type} (w : world) (a : act A) (h : trace) : A * trace :=
  match a with
  | Ret x => (x, [])
  | Begin k =>
      let r := db_begin w h in
      emit (EvBegin r) (run_act w (k r) (h ++ [EvBegin r]))
  | Exec t q args k =>
      let r := db_exec w h t q args in
      emit (EvExec t q args r) (run_act w (k r) (h ++ [EvExec t q args r]))
  | Commit t k =>
      let r := db_commit w h t in
      emit (EvCommit t r) (run_act w (k r) (h ++ [EvCommit t r]))
  | Rollback t k =>
      let r := db_rollback w h t in
      emit (EvRollback t r) (run_act w (k r) (h ++ [EvRollback t r]))
  | Log l fmt ops k =>
      emit (EvLog l fmt ops) (run_act w k (h ++ [EvLog l fmt ops]))
  | Observe name k =>
      emit (EvObserve name) (run_act w k (h ++ [EvObserve name]))
  end.

(** *** Goroutine groups ([golang.org/x/sync/errgroup]) *)

(** [errOnce]: the group keeps the first error a goroutine returns. *)
Definition first_error (slot r : option error) : option error :=
  match slot with
  | Some _ => slot
  | None => r
  end.

(** The goroutines left, one after the other. *)
Fixpoint drain (w : world) (ths : list (nat * act (option error)))
    (slot : option error) (h : trace) : option error * trace :=
  match ths with
  | [] => (slot, [])
  | (id, a) :: rest =>
      let '(r, t) := run_act w a h in
      let '(res, t') := drain w rest (first_error slot r) (h ++ t ++ [EvDone id r]) in
      (res, t ++ EvDone id r :: t')
  end.

(** [Group.Go] for every goroutine of [ths], then [Group.Wait]: at each
    choice [p] the scheduler lets one goroutine make its next call, or
    return; a goroutine that returns leaves the group and its error takes
    the group's slot if the slot is free.  [Wait] returns the slot once
    every goroutine has returned. *)
Fixpoint run_group (w : world) (picks : list nat) (ths : list (nat * act (option error)))
    (slot : option error) (h : trace) : option error * trace :=
  match picks with
  | [] => drain w ths slot h
  | p :: picks' =>
      let i := (p mod length ths)%nat in
      match ths !! i with
      | None => (slot, [])
      | Some (id, a) =>
          match step_act w a h with
          | inr r =>
              emit (EvDone id r)
                (run_group w picks' (delete i ths) (first_error slot r) (h ++ [EvDone id r]))
          | inl (ev, a') =>
              emit ev (run_group w picks' (<[i := (id, a')]> ths) slot (h ++ [ev]))
          end
      end
  end.

(** *** Code of the main goroutine: reads the history, leaves events *)

Definition M (A : Type) : Type := trace -> A * trace.

Definition M_ret {A : Type} (a : A) : M A := fun _ => (a, []).

Definition M_bind {A B : Type} (m : M A) (f : A -> M B) : M B :=
  fun h =>
    let '(a, t) := m h in
    let '(b, t') := f a (h ++ t) in
    (b, t ++ t').

Declare Scope M_scope.
Delimit Scope M_scope with M.
Notation "'do' x <- m ; k" := (M_bind m (fun x => k))
  (at level 10, x name, m at level 100, k at level 200) : M_scope.
Notation "m ;;; k" := (M_bind m (fun _ => k))
  (at level 100, k at level 200, right associativity) : M_scope.

Definition M_act {A : Type} (w : world) (a : act A) : M A := run_act w a.

(** [time.Sleep(d)]. *)
Definition sleep (d : Z) : M unit := fun _ => (tt, [EvSleep d]).

Definition M_logf (l : level) (format : string) (operands : list logarg) : M unit :=
  fun _ => (tt, [EvLog l (Some format) operands]).

(** *** Merging by primary key *)

Definition key : Type := list value.

(** Modelled from the spec: the key of a change record (the code that
    computes it is not among the sources).  It is read from [Values] for an insert and from
    [OldValues] for an update or a delete, over the key columns of the
    table; a record with no key column, or with a key column that has no
    value, has no key. *)
Definition keyOf (d : DML) : option key :=
  let from := match Tp d with
              | InsertDMLType => Values d
              | _ => OldValues d
              end in
  match keyColumns (info d) with
  | [] => None
  | cols => mapM (fun c => from !! c) cols
  end.

Definition withTp (d : DML) (tp : DMLType) : DML :=
  {| Database := Database d; Table := Table d; Tp := tp;
     Values := Values d; OldValues := OldValues d; info := info d |}.

(** Modelled from the spec: the effective kind of a key after the change
    [d], when [old] was its effective record.  A delete makes it Delete; an
    insert or update over a live record makes it Update; an insert or
    update over no record, or over a deleted one, keeps its own kind. *)
Definition effectiveKind (old : option DML) (d : DML) : DMLType :=
  match Tp d with
  | DeleteDMLType => DeleteDMLType
  | tp =>
      match old with
      | Some o =>
          match Tp o with
          | DeleteDMLType => tp
          | _ => UpdateDMLType
          end
      | None => tp
      end
  end.

Definition keyResolutionError : error := Foreign "no usable key".

(** Modelled from the spec: the pass over the changes in order, keeping
    for each key its effective record; it fails on the first record that
    has no key. *)
Fixpoint mergeKeys (dmls : list DML) (m : gmap key DML) : result (gmap key DML) :=
  match dmls with
  | [] => Ok m
  | d :: rest =>
      match keyOf d with
      | None => Err keyResolutionError
      | Some k => mergeKeys rest (<[k := withTp d (effectiveKind (m !! k) d)]> m)
      end
  end.

Definition addToBucket (types : gmap DMLType (list DML)) (d : DML) : gmap DMLType (list DML) :=
  <[Tp d := default [] (types !! Tp d) ++ [d]]> types.

Definition bucketsOf (l : list DML) : gmap DMLType (list DML) :=
  fold_left addToBucket l ∅.

(** Modelled from the spec: [mergeByPrimaryKey] (called by [execTableBatch];
    its code is not among the sources): after the pass, each key's effective
    record goes to the bucket of its kind. *)
Definition mergeByPrimaryKey (dmls : list DML) : result (gmap DMLType (list DML)) :=
  match mergeKeys dmls ∅ with
  | Err e => Err e
  | Ok m => Ok (bucketsOf (map_to_list m).*2)
  end.

(** *** The executor *)

(** [executor]; the database handle is the [world], and of the histogram
    only its presence (non-nil) is kept. *)
Record executor : Type := {
  batchSize : Z;
  queryHistogramVec : bool
}.

Definition defaultBatchSize : Z := 128.

Definition newExecutor : executor :=
  {| batchSize := defaultBatchSize; queryHistogramVec := false |}.

Definition withBatchSize (e : executor) (batchSize : Z) : executor :=
  {| batchSize := batchSize; queryHistogramVec := queryHistogramVec e |}.

Definition withQueryHistogramVec (e : executor) (queryHistogramVec : bool) : executor :=
  {| batchSize := batchSize e; queryHistogramVec := queryHistogramVec |}.

(** [tx]: a [sql.Tx] with the executor's histogram. *)
Record tx : Type := {
  Tx : txid;
  txQueryHistogramVec : bool
}.

Section Executor.

(** Code of package [loader] that is not among the sources: the three
    statements of a change record, the helpers that print identifiers and
    placeholders, and the split of a bucket into sub-batches. *)
Variables sql deleteSQL replaceSQL : DML -> stmt.
Variable quoteSchema : string -> string -> string.
Variable buildColumnList : list string -> string.
Variable holderString : Z -> string.
Variable splitDMLs : list DML -> Z -> list (list DML).

Variable w : world.
Variable e : executor.

(** [tx.exec]: [sql.Tx.Exec], then the observation; the [sql.Result] is
    dropped by every caller. *)
Definition tx_exec (tx : tx) (query : string) (args : list value) : act (option error) :=
  (do err <- Exec (Tx tx) query args (fun err => Ret err);
   observe (txQueryHistogramVec tx) "exec";;;
   Ret err)%act.

(** [tx.commit]. *)
Definition tx_commit (tx : tx) : act (option error) :=
  (do err <- Commit (Tx tx) (fun err => Ret err);
   observe (txQueryHistogramVec tx) "commit";;;
   Ret (Trace err))%act.

(** [tx.Rollback()], the method of the embedded [sql.Tx]; its error is
    dropped by every caller. *)
Definition tx_Rollback (tx : tx) : act unit :=
  Rollback (Tx tx) (fun _ => Ret tt).

(** [executor.begin]. *)
Definition begin : act (result tx) :=
  Begin (fun r =>
    match r with
    | Err err => Ret (Err (Traced err))
    | Ok sqlTx =>
        Ret (Ok {| Tx := sqlTx; txQueryHistogramVec := queryHistogramVec e |})
    end).

Definition bulkDelete_sqls (deletes : list DML) : string :=
  fold_left (fun sqls dml => sqls +:+ (sql dml).1 +:+ ";") deletes "".

Definition bulkDelete_argss (deletes : list DML) : list value :=
  fold_left (fun argss dml => argss ++ (sql dml).2) deletes [].

Definition bulkDelete (deletes : list DML) : act (option error) :=
  let sqls := bulkDelete_sqls deletes in
  let argss := bulkDelete_argss deletes in
  (do r <- begin;
   match r with
   | Err err => Ret (Some (Traced err))
   | Ok tx =>
       do err <- tx_exec tx sqls argss;
       match err with
       | Some err =>
           logv LError [LStr "exec fail sql: %s, args: %v"; LStr sqls; LArgs argss];;;
           tx_Rollback tx;;;
           Ret (Some (Traced err))
       | None =>
           do err <- tx_commit tx;
           match err with
           | Some err => Ret (Some (Traced err))
           | None => Ret None
           end
       end
   end)%act.

Definition bulkReplace_sql (first : DML) (n : nat) : string :=
  let holder := "(" +:+ holderString (Z.of_nat (length (columns (info first)))) +:+ ")" in
  "REPLACE INTO " +:+ quoteSchema (Database first) (Table first)
    +:+ "(" +:+ buildColumnList (columns (info first)) +:+ ") VALUES "
    +:+ String.concat "," (replicate n holder).

Definition bulkReplace_args (first : DML) (inserts : list DML) : list value :=
  flat_map (fun insert =>
              map (fun name => default VNil (Values insert !! name)) (columns (info first)))
           inserts.

Definition bulkReplace (inserts : list DML) : act (option error) :=
  match inserts with
  | [] => Ret None
  | first :: _ =>
      let query := bulkReplace_sql first (length inserts) in
      let args := bulkReplace_args first inserts in
      (do r <- begin;
       match r with
       | Err err => Ret (Some (Traced err))
       | Ok tx =>
           do err <- tx_exec tx query args;
           match err with
           | Some err =>
               logf LError "exec fail sql: %s, args: %v, err: %v"
                 [LStr query; LArgs args; LErr err];;;
               tx_Rollback tx;;;
               Ret (Some (Traced err))
           | None =>
               do err <- tx_commit tx;
               match err with
               | Some err => Ret (Some (Traced err))
               | None => Ret None
               end
           end
       end)%act
  end.

(** One statement of [singleExec]: debug line, [tx.exec], and on failure
    the error line and the rollback.  The value is the statement's error. *)
Definition singleExec_stmt (tx : tx) (debug : string) (s : stmt) : act (option error) :=
  (logf LDebug debug [LStr s.1; LArgs s.2];;;
   do err <- tx_exec tx s.1 s.2;
   match err with
   | Some err =>
       logf LError "err: %v, exec dml sql: %s, args: %v" [LErr err; LStr s.1; LArgs s.2];;;
       tx_Rollback tx;;;
       Ret (Some (Traced err))
   | None => Ret None
   end)%act.

(** The loop of [singleExec] over the group, then the commit. *)
Fixpoint singleExec_loop (tx : tx) (dmls : list DML) (safeMode : bool) : act (option error) :=
  match dmls with
  | [] => (do err <- tx_commit tx; Ret (Trace err))%act
  | dml :: rest =>
      if safeMode && bool_decide (Tp dml = UpdateDMLType) then
        (do err <- singleExec_stmt tx "exec: %s, args: %v" (deleteSQL dml);
         match err with
         | Some _ => Ret err
         | None =>
             do err <- singleExec_stmt tx "exec: %s, args: %v" (replaceSQL dml);
             match err with
             | Some _ => Ret err
             | None => singleExec_loop tx rest safeMode
             end
         end)%act
      else if safeMode && bool_decide (Tp dml = InsertDMLType) then
        (do err <- singleExec_stmt tx "exec dml sql: %s, args: %v" (replaceSQL dml);
         match err with
         | Some _ => Ret err
         | None => singleExec_loop tx rest safeMode
         end)%act
      else
        (do err <- singleExec_stmt tx "exec dml sql: %s, args: %v" (sql dml);
         match err with
         | Some _ => Ret err
         | None => singleExec_loop tx rest safeMode
         end)%act
  end.

Definition singleExec (dmls : list DML) (safeMode : bool) : act (option error) :=
  (do r <- begin;
   match r with
   | Err err => Ret (Some (Traced err))
   | Ok tx => singleExec_loop tx dmls safeMode
   end)%act.

(** [splitExecDML]: one goroutine per sub-batch, numbered in the order of
    the split; the goroutine traces the error of [exec]. *)
Definition splitExecDML (dmls : list DML) (exec : list DML -> act (option error))
  : M (option error) :=
  fun h =>
    let ths := imap (fun i split => (i, (do err <- exec split; Ret (Trace err))%act))
                    (splitDMLs dmls (batchSize e)) in
    let '(err, t) := run_group w (schedule w h) ths None h in
    (Trace err, t).

(** One bucket of [execTableBatch]: skipped when the kind is not a key of
    the merge result. *)
Definition execBucket (types : gmap DMLType (list DML)) (tp : DMLType)
    (exec : list DML -> act (option error)) : M (option error) :=
  match types !! tp with
  | Some all =>
      (do err <- splitExecDML all exec;
       M_ret (Trace err))%M
  | None => M_ret None
  end.

Definition execTableBatch (dmls : list DML) : M (option error) :=
  match dmls with
  | [] => M_ret None
  | _ =>
      match mergeByPrimaryKey dmls with
      | Err err => M_ret (Some (Traced err))
      | Ok types =>
          (M_logf LDebug "dmls: %v after merge: %v" [LDMLs dmls; LTypes types];;;
           do err <- execBucket types DeleteDMLType bulkDelete;
           match err with
           | Some _ => M_ret err
           | None =>
               do err <- execBucket types InsertDMLType bulkReplace;
               match err with
               | Some _ => M_ret err
               | None =>
                   do err <- execBucket types UpdateDMLType bulkReplace;
                   match err with
                   | Some _ => M_ret err
                   | None => M_ret None
                   end
               end
           end)%M
      end
  end.

(** The loop of [execTableBatchRetry] over [i = 0 .. retryNum-1]; [err]
    is the variable declared before the loop. *)
Fixpoint execTableBatchRetry_loop (idx : list Z) (err : option error)
    (dmls : list DML) (backoff : Z) : M (option error) :=
  match idx with
  | [] => M_ret (Trace err)
  | i :: idx' =>
      ((if bool_decide (i > 0) then sleep backoff else M_ret tt);;;
       do err <- execTableBatch dmls;
       match err with
       | None => M_ret None
       | Some _ => execTableBatchRetry_loop idx' err dmls backoff
       end)%M
  end.

Definition execTableBatchRetry (dmls : list DML) (retryNum : Z) (backoff : Z)
  : M (option error) :=
  execTableBatchRetry_loop (seqZ 0 retryNum) None dmls backoff.

(** The inner loop of [singleExecRetry] for one group; it ends by [break]
    on success or when [i] reaches [retryNum], and yields [err]. *)
Fixpoint singleExecRetry_attempts (idx : list Z) (err : option error)
    (dmls : list DML) (safeMode : bool) (backoff : Z) : M (option error) :=
  match idx with
  | [] => M_ret err
  | i :: idx' =>
      ((if bool_decide (i > 0) then sleep backoff else M_ret tt);;;
       do err <- M_act w (singleExec dmls safeMode);
       match err with
       | None => M_ret None
       | Some _ => singleExecRetry_attempts idx' err dmls safeMode backoff
       end)%M
  end.

(** The outer loop of [singleExecRetry] over the groups. *)
Fixpoint singleExecRetry_groups (groups : list (list DML)) (err : option error)
    (safeMode : bool) (retryNum : Z) (backoff : Z) : M (option error) :=
  match groups with
  | [] => M_ret None
  | dmls :: groups' =>
      (do err <- singleExecRetry_attempts (seqZ 0 retryNum) err dmls safeMode backoff;
       match err with
       | Some err => M_ret (Some (Traced err))
       | None => singleExecRetry_groups groups' err safeMode retryNum backoff
       end)%M
  end.

Definition singleExecRetry (allDMLs : list DML) (safeMode : bool) (retryNum : Z)
    (backoff : Z) : M (option error) :=
  singleExecRetry_groups (splitDMLs allDMLs (batchSize e)) None safeMode retryNum backoff.

(** [groupByTable]: nil for no record (here [None]); else the records of
    each table, by the quoted name of the table, in the order they came. *)
Definition groupByTable (dmls : list DML) : option (gmap string (list DML)) :=
  match dmls with
  | [] => None
  | _ =>
      Some (fold_left
              (fun tables dml =>
                 let table := quoteSchema (Database dml) (Table dml) in
                 let tableDMLs := default [] (tables !! table) in
                 <[table := tableDMLs ++ [dml]]> tables)
              dmls ∅)
  end.

End Executor.

(** *** Reading traces *)

(** The statements run, with their transaction and their outcome. *)
Definition execs (t : trace) : list (txid * stmt * option error) :=
  omap (fun ev => match ev with
                  | EvExec tx q args r => Some (tx, (q, args), r)
                  | _ => None
                  end) t.

Definition commits (t : trace) : list (txid * option error) :=
  omap (fun ev => match ev with EvCommit tx r => Some (tx, r) | _ => None end) t.

Definition rollbacks (t : trace) : list txid :=
  omap (fun ev => match ev with EvRollback tx _ => Some tx | _ => None end) t.

Definition begins (t : trace) : list (result txid) :=
  omap (fun ev => match ev with EvBegin r => Some r | _ => None end) t.

Definition sleeps (t : trace) : list Z :=
  omap (fun ev => match ev with EvSleep d => Some d | _ => None end) t.

(** The goroutines that returned, in the order they returned. *)
Definition dones (t : trace) : list (nat * option error) :=
  omap (fun ev => match ev with EvDone id r => Some (id, r) | _ => None end) t.

(** The trace without the logger's lines and the observations. *)
Definition db_events (t : trace) : trace :=
  omap (fun ev => match ev with
                  | EvLog _ _ _ | EvObserve _ => None
                  | _ => Some ev
                  end) t.

Definition succeeded (tx : txid) (s : stmt) : txid * stmt * option error := (tx, s, None).

(** What one transaction over the statements [plan] may leave, logger
    lines and observations apart: the statements in order, each successful, then the
    commit; or a successful prefix, the first failing statement and the
    rollback, with the statement's error traced once as the result. *)
Inductive tx_run (tx : txid) : list stmt -> trace -> option error -> Prop :=
| tx_run_commit rc :
    tx_run tx [] [EvCommit tx rc] (Trace (Trace rc))
| tx_run_next s plan t res :
    tx_run tx plan t res ->
    tx_run tx (s :: plan) (EvExec tx s.1 s.2 None :: t) res
| tx_run_abort s plan err r :
    tx_run tx (s :: plan) [EvExec tx s.1 s.2 (Some err); EvRollback tx r] (Some (Traced err)).

(** A batch function's run: nothing at all (an empty batch that is
    skipped), a failed [begin], or one transaction over [plan]. *)
Inductive batch_run (plan : list stmt) : trace -> option error -> Prop :=
| batch_skipped :
    plan = [] -> batch_run plan [] None
| batch_no_tx err :
    batch_run plan [EvBegin (Err err)] (Some (Traced (Traced err)))
| batch_tx tx t res :
    tx_run tx plan t res ->
    batch_run plan (EvBegin (Ok tx) :: t) res.

(** The trace after the observation at its head, if there is one. *)
Definition after_observation (t : trace) : trace :=
  match t with
  | EvObserve _ :: rest => rest
  | _ => t
  end.

(** Every failing statement is followed at once (its observation apart) by
    an error line of the logger that carries the statement's text and its
    arguments. *)
Fixpoint failures_logged (t : trace) : Prop :=
  match t with
  | [] => True
  | EvExec tx q args (Some err) :: rest =>
      match after_observation rest with
      | EvLog LError _ operands :: _ => LStr q ∈ operands /\ LArgs args ∈ operands
      | _ => False
      end /\ failures_logged rest
  | _ :: rest => failures_logged rest
  end.

(** The events of statements that ran and succeeded. *)
Definition ran (tx : txid) (done : list stmt) : trace :=
  (fun s => EvExec tx s.1 s.2 None) <$> done.

(** The two shapes of a transaction over [plan], logger lines and
    observations apart. *)
Definition committed (tx : txid) (plan : list stmt) (u : trace) (res : option error) : Prop :=
  exists rc, u = ran tx plan ++ [EvCommit tx rc] /\ res = Trace (Trace rc).

Definition aborted (tx : txid) (plan : list stmt) (u : trace) (res : option error) : Prop :=
  exists done s rest err r,
    plan = done ++ s :: rest /\
    u = ran tx done ++ [EvExec tx s.1 s.2 (Some err); EvRollback tx r] /\
    res = Some (Traced err).

(** No commit after a failed statement, and no commit of a part: a
    failing statement is the last one run, its rollback is the next call to
    the database, and its error is the result; a commit comes only after
    the whole plan ran with success. *)
Definition voided_or_whole (plan : list stmt) (t : trace) (res : option error) : Prop :=
  (forall tx q args err,
      EvExec tx q args (Some err) ∈ t ->
      res = Some (Traced err) /\
      (exists pre r, db_events t = pre ++ [EvExec tx q args (Some err); EvRollback tx r]) /\
      (exists done, execs t = (succeeded tx <$> done) ++ [(tx, (q, args), Some err)]) /\
      commits t = [] /\ rollbacks t = [tx]) /\
  (forall tx rc,
      EvCommit tx rc ∈ t ->
      execs t = succeeded tx <$> plan /\ commits t = [(tx, rc)] /\ rollbacks t = [] /\
      res = Trace (Trace rc)).

(** *** Retrying *)

(** [attempts body backoff n h t r]: from history [h], the unit of work
    [body] was attempted [n] times, every attempt but the last failed, one
    sleep of [backoff] came before every attempt but the first, the last
    attempt returned [r], and [t] is all that happened. *)
Inductive attempts (body : M (option error)) (backoff : Z)
  : nat -> trace -> trace -> option error -> Prop :=
| attempts_first h r t :
    body h = (r, t) ->
    attempts body backoff 1 h t r
| attempts_again n h t err r t' :
    attempts body backoff n h t (Some err) ->
    body (h ++ t ++ [EvSleep backoff]) = (r, t') ->
    attempts body backoff (S n) h (t ++ EvSleep backoff :: t') r.

(** [groups_run unit backoff retryNum groups h t res]: the groups were
    taken in order, each retried as [attempts] says and at most [retryNum]
    times; the run stopped at the first group whose attempts all failed,
    with that group's last error traced, and otherwise returned nil. *)
Inductive groups_run (unit : list DML -> M (option error)) (backoff : Z) (retryNum : nat)
  : list (list DML) -> trace -> trace -> option error -> Prop :=
| groups_done h :
    groups_run unit backoff retryNum [] h [] None
| groups_next g gs n h t t' res :
    attempts (unit g) backoff n h t None ->
    (n <= retryNum)%nat ->
    groups_run unit backoff retryNum gs (h ++ t) t' res ->
    groups_run unit backoff retryNum (g :: gs) h (t ++ t') res
| groups_stop g gs h t err :
    attempts (unit g) backoff retryNum h t (Some err) ->
    groups_run unit backoff retryNum (g :: gs) h t (Some (Traced err)).

(** [retried body backoff retryNum h res t]: what a retry loop with a
    positive count does with the unit [body]: some [n] attempts, at most
    [retryNum]; [n - 1] sleeps in all; nil when the last attempt succeeded;
    and when it failed, all [retryNum] attempts were made and its error is
    returned traced. *)
Definition retried (body : M (option error)) (backoff retryNum : Z) (h : trace)
    (res : option error) (t : trace) : Prop :=
  exists n r,
    (1 <= n <= Z.to_nat retryNum)%nat /\
    attempts body backoff n h t r /\
    sleeps t = replicate (n - 1) backoff /\
    (r = None /\ res = None \/
     exists err, r = Some err /\ n = Z.to_nat retryNum /\ res = Some (Traced err)).

Section Retry.

Variable body : M (option error).
Variable finish : option error -> option error.
Variable backoff : Z.

(** The shape both retry loops of the source share: [finish] is what the
    loop's caller makes of the last error. *)
Fixpoint retry_loop (idx : list Z) (err : option error) : M (option error) :=
  match idx with
  | [] => M_ret (finish err)
  | i :: idx' =>
      ((if bool_decide (i > 0) then sleep backoff else M_ret tt);;;
       do err <- body;
       match err with
       | None => M_ret None
       | Some _ => retry_loop idx' err
       end)%M
  end.

End Retry.

(** *** Goroutine returns, statements of a goroutine, plans of a batch *)

(** The first error in the order the goroutines returned. *)
Definition first_failure (rs : list (option error)) : option error :=
  foldr first_error None rs.

(** Every statement the code [a] can ask the database to run, whatever the
    database answers, is one of [S]. *)
Fixpoint calls_in {A : Type} (S : stmt -> Prop) (a : act A) : Prop :=
  match a with
  | Ret _ => True
  | Begin k => forall r, calls_in S (k r)
  | Exec _ q args k => S (q, args) /\ forall r, calls_in S (k r)
  | Commit _ k => forall r, calls_in S (k r)
  | Rollback _ k => forall r, calls_in S (k r)
  | Log _ _ _ k => calls_in S k
  | Observe _ k => calls_in S k
  end.

(** On every path, whatever the database answers, the code [a] calls
    [Begin] exactly [n] times before it returns. *)
Fixpoint begins_left {A : Type} (n : nat) (a : act A) : Prop :=
  match a with
  | Ret _ => n = 0%nat
  | Begin k => exists m, n = S m /\ forall r, begins_left m (k r)
  | Exec _ _ _ k => forall r, begins_left n (k r)
  | Commit _ k => forall r, begins_left n (k r)
  | Rollback _ k => forall r, begins_left n (k r)
  | Log _ _ _ k => begins_left n k
  | Observe _ k => begins_left n k
  end.

(** A run that opened a transaction closed it, once, as its last call to
    the database: with no [Begin] no call was made at all; after a failed
    [Begin] no statement, commit or rollback follows; after a successful one
    every statement is on that transaction and exactly one commit or
    rollback of it ends the calls. *)
Definition tx_closed_once (t : trace) : Prop :=
  match begins t with
  | [] => db_events t = []
  | [Err _] => execs t = [] /\ commits t = [] /\ rollbacks t = []
  | [Ok id] =>
      Forall (fun x => x.1.1 = id) (execs t) /\
      (commits t).*1 ++ rollbacks t = [id] /\
      exists pre r, db_events t = pre ++ [EvCommit id r] \/
                    db_events t = pre ++ [EvRollback id r]
  | _ => False
  end.

(** Nil is reported exactly for a run that made no call to the database
    or whose commit succeeded. *)
Definition nil_iff_committed (t : trace) (res : option error) : Prop :=
  res = None <-> db_events t = [] \/ exists id, EvCommit id None ∈ t.

Section Plans.

Variables sql deleteSQL replaceSQL : DML -> stmt.
Variable quoteSchema : string -> string -> string.
Variable buildColumnList : list string -> string.
Variable holderString : Z -> string.
Variable splitDMLs : list DML -> Z -> list (list DML).
Variable w : world.
Variable e : executor.

(** The statements [singleExec] plans for a record. *)
Definition statementsOf (safeMode : bool) (dml : DML) : list stmt :=
  if safeMode then
    match Tp dml with
    | UpdateDMLType => [deleteSQL dml; replaceSQL dml]
    | InsertDMLType => [replaceSQL dml]
    | DeleteDMLType => [sql dml]
    end
  else [sql dml].

Definition singleExec_plan (safeMode : bool) (dmls : list DML) : list stmt :=
  flat_map (statementsOf safeMode) dmls.

Definition bulkDelete_plan (deletes : list DML) : list stmt :=
  [(bulkDelete_sqls sql deletes, bulkDelete_argss sql deletes)].

Definition bulkReplace_plan (inserts : list DML) : list stmt :=
  match inserts with
  | [] => []
  | first :: _ =>
      [(bulkReplace_sql quoteSchema buildColumnList holderString first (length inserts),
        bulkReplace_args first inserts)]
  end.

(** The statements of a bucket: those planned for its sub-batches. *)
Definition bucket_stmts (plan : list DML -> list stmt) (all : list DML) (s : stmt) : Prop :=
  exists split, split ∈ splitDMLs all (batchSize e) /\ s ∈ plan split.

(** What applying the bucket [tp] of [types] from history [h] did: [r] and
    [t] are what [execBucket] gave; every statement run is one planned for a
    sub-batch of that bucket; every goroutine of the bucket returned before
    the bucket ended; [r] is the first error a goroutine returned, traced by
    [splitExecDML] and by [execTableBatch]. *)
Definition bucket_phase (types : gmap DMLType (list DML)) (tp : DMLType)
    (exec : list DML -> act (option error)) (plan : list DML -> list stmt)
    (h : trace) (r : option error) (t : trace) : Prop :=
  execBucket splitDMLs w e types tp exec h = (r, t) /\
  Forall (fun x => bucket_stmts plan (default [] (types !! tp)) x.1.2) (execs t) /\
  (dones t).*1 ≡ₚ
    seq 0 (length (default [] ((fun all => splitDMLs all (batchSize e)) <$> types !! tp))) /\
  r = Trace (Trace (first_failure (dones t).*2)) /\
  sleeps t = [].

End Plans.

(** The last change of the sequence that bears on key [k]. *)
Fixpoint last_change (k : key) (dmls : list DML) : option DML :=
  match dmls with
  | [] => None
  | d :: rest =>
      match last_change k rest with
      | Some d' => Some d'
      | None => if decide (keyOf d = Some k) then Some d else None
      end
  end.

(** The effective records of kind [tp], each with its key. *)
Definition entries (m : gmap key DML) (tp : DMLType) : list (key * DML) :=
  filter (fun kr => Tp kr.2 = tp) (map_to_list m).

End Loader.

(** ** Package [restore] *)

Module Restore.
Import Errors.

Definition value : Type := Loader.value.

(** A decoded binlog, opaque to this package. *)
Definition payload : Type := string.

(** What [translator.Translate] gives: [sqls], [args], [isDDL]. *)
Definition translation : Type := list string * list (list value) * bool.

(** A binlog file being read: what each next [readBinlog] on its reader
    returns; after the last of them [readBinlog] returns [io.EOF]. *)
Definition reader : Type := list (result payload).

Inductive level : Type := LDebug | LWarn | LFatal.

Inductive logarg : Type :=
| LInt (z : Z)
| LSqls (sqls : list string)
| LArgs (args : list (list value))
| LErr (e : error).

Inductive event : Type :=
| EvOpen (path : string) (ok : bool)
| EvRead (r : result payload)
| EvExecute (sqls : list string) (args : list (list value)) (isDDL : bool) (r : option error)
| EvLog (l : level) (format : string) (operands : list logarg)
| EvClose (path : string).

Definition trace : Type := list event.

(** How [Start] ends: it returns, or [log.Fatalf] ends the process, or a
    slice bound is broken. *)
Inductive outcome : Type :=
| Returned (err : option error)
| Exited
| Panicked.

(** *** Reading traces *)

(** The paths [Start] tried to open, those it did open, and those it
    closed. *)
Definition opens (t : trace) : list string :=
  omap (fun ev => match ev with EvOpen p _ => Some p | _ => None end) t.

Definition opened (t : trace) : list string :=
  omap (fun ev => match ev with EvOpen p true => Some p | _ => None end) t.

Definition closed (t : trace) : list string :=
  omap (fun ev => match ev with EvClose p => Some p | _ => None end) t.

(** The binlogs read, and what was handed to [Execute]. *)
Definition payloads (t : trace) : list payload :=
  omap (fun ev => match ev with EvRead (Ok p) => Some p | _ => None end) t.

Definition executions (t : trace) : list translation :=
  omap (fun ev => match ev with
                  | EvExecute sqls args isDDL _ => Some (sqls, args, isDDL)
                  | _ => None
                  end) t.

(** What follows a read that ended a file: the next file, the deferred
    closes, or nothing. *)
Definition file_ended (rest : trace) : Prop :=
  match rest with
  | [] | EvOpen _ _ :: _ | EvClose _ :: _ => True
  | _ => False
  end.

(** Every failed read is accounted for: [io.EOF] ends the file and nothing
    more is read from it; any other error ends [Start], which returns the
    decode error, and only the deferred closes follow. *)
Fixpoint read_errors_handled (out : outcome) (t : trace) : Prop :=
  match t with
  | [] => True
  | EvRead (Err err) :: rest =>
      if decide (err = EOF) then file_ended rest /\ read_errors_handled out rest
      else
        out = Returned (Some (Errorf "decode binlog error %v" [] err)) /\
        Forall (fun ev => exists p, ev = EvClose p) rest
  | _ :: rest => read_errors_handled out rest
  end.

Section Start.

(** The collaborators of [Start], none of which is among the sources. *)
Variable readBinlogNames : string -> result (list string).
Variable searchFileIndex : list string -> string -> Z.
Variable Join : string -> string -> string.
Variable OpenFile : string -> result reader.
Variable Translate : payload -> result translation.
Variable IgnoreDDLError : error -> bool.
(** [executor.Execute], whose answer may depend on all that happened. *)
Variable Execute : trace -> list string -> list (list value) -> bool -> option error.

(** [r.cfg.Dir]. *)
Variable dir : string.

(** The inner loop over the binlogs of one file, from history [h].  It
    yields [None] when it ends by [break] at [io.EOF], and [Some err] when
    [Start] returns [err] from inside it. *)
Fixpoint read_loop (rd : reader) (h : trace) : option (option error) * trace :=
  match rd with
  | [] => (None, [EvRead (Err EOF)])
  | Err err :: _ =>
      if decide (err = EOF) then (None, [EvRead (Err err)])
      else (Some (Some (Errorf "decode binlog error %v" [] err)), [EvRead (Err err)])
  | Ok p :: rest =>
      match Translate p with
      | Err err => (Some (Some (Traced err)), [EvRead (Ok p)])
      | Ok (sqls, args, isDDL) =>
          let err := Execute (h ++ [EvRead (Ok p)]) sqls args isDDL in
          let ran := [EvRead (Ok p); EvExecute sqls args isDDL err] in
          match err with
          | Some err =>
              if IgnoreDDLError err then
                let warned :=
                  ran ++ [EvLog LWarn "[ignore ddl error][sql]%s[args]%v[error]%v"
                            [LSqls sqls; LArgs args; LErr err]] in
                let '(res, t) := read_loop rest (h ++ warned) in
                (res, warned ++ t)
              else (Some (Some (Traced err)), ran)
          | None =>
              let '(res, t) := read_loop rest (h ++ ran) in
              (res, ran ++ t)
          end
      end
  end.

(** The deferred [f.Close()] calls, run when [Start] returns: last opened,
    first closed. *)
Definition closes (opened : list string) : trace := EvClose <$> opened.

(** The outer loop over the file names; [opened] are the files opened so
    far, the last one first. *)
Fixpoint files_loop (names : list string) (opened : list string) (h : trace)
  : outcome * trace :=
  match names with
  | [] => (Returned None, closes opened)
  | name :: names' =>
      let p := Join dir name in
      match OpenFile p with
      | Err err =>
          (Returned (Some (Errorf "open file %s error %v" [name] err)),
           EvOpen p false :: closes opened)
      | Ok rd =>
          let '(res, t) := read_loop rd (h ++ [EvOpen p true]) in
          match res with
          | Some err => (Returned err, EvOpen p true :: t ++ closes (p :: opened))
          | None =>
              let '(out, t') := files_loop names' (p :: opened) (h ++ EvOpen p true :: t) in
              (out, EvOpen p true :: t ++ t')
          end
      end
  end.

(** [Restore.Start]. *)
Definition Start (h : trace) : outcome * trace :=
  match readBinlogNames dir with
  | Err err => (Exited, [EvLog LFatal "read binlog file name error %v" [LErr err]])
  | Ok names =>
      let index := searchFileIndex names "" in
      let line := EvLog LDebug "index %d" [LInt index] in
      if bool_decide (0 <= index <= Z.of_nat (length names)) then
        let '(out, t) := files_loop (drop (Z.to_nat index) names) [] (h ++ [line]) in
        (out, line :: t)
      else (Panicked, [line])
  end.

(** What is required of a run [t] that ended as [out]: an [Execute] that
    returned an error the classifier ignores is followed by the warning that
    carries it and then by the next [readBinlog]; one that returned any
    other error is the last thing [Start] did but for the deferred closes,
    and [Start] returned that error traced. *)
Fixpoint execute_errors_handled (out : outcome) (t : trace) : Prop :=
  match t with
  | [] => True
  | EvExecute sqls args isDDL (Some err) :: rest =>
      if IgnoreDDLError err then
        (exists next rest',
            rest = EvLog LWarn "[ignore ddl error][sql]%s[args]%v[error]%v"
                     [LSqls sqls; LArgs args; LErr err] :: EvRead next :: rest') /\
        execute_errors_handled out rest
      else
        out = Returned (Some (Traced err)) /\
        Forall (fun ev => exists p, ev = EvClose p) rest
  | _ :: rest => execute_errors_handled out rest
  end.

End Start.

End Restore.

(** ** A small table and a database that fails on demand *)

Module Demo.
Import Errors Loader.

Definition tinfo : tableInfo := {| columns := ["id"; "v"]; keyColumns := ["id"] |}.

Definition row (id : Z) (v : string) : gmap string value :=
  {["id" := VInt id; "v" := VStr v]}.

Definition insert (id : Z) (v : string) : DML :=
  {| Database := "test"; Table := "t"; Tp := InsertDMLType;
     Values := row id v; OldValues := ∅; info := tinfo |}.

Definition update (id : Z) (old v : string) : DML :=
  {| Database := "test"; Table := "t"; Tp := UpdateDMLType;
     Values := row id v; OldValues := row id old; info := tinfo |}.

Definition delete (id : Z) (old : string) : DML :=
  {| Database := "test"; Table := "t"; Tp := DeleteDMLType;
     Values := ∅; OldValues := row id old; info := tinfo |}.

Definition cells (m : gmap string value) (d : DML) : list value :=
  (fun c => default VNil (m !! c)) <$> columns (info d).

Definition keyCells (m : gmap string value) (d : DML) : list value :=
  (fun c => default VNil (m !! c)) <$> keyColumns (info d).

(** Modelled from the spec: [deleteSQL] deletes by the old values of the
    key columns (its code is not among the sources; the statement text here
    names the table only). *)
Definition deleteSQL (d : DML) : stmt :=
  ("DELETE FROM " +:+ Table d +:+ " WHERE key = ?", keyCells (OldValues d) d).

(** Modelled from the spec: [replaceSQL] writes the whole row from [Values]. *)
Definition replaceSQL (d : DML) : stmt :=
  ("REPLACE INTO " +:+ Table d +:+ " VALUES (?)", cells (Values d) d).

(** Modelled from the spec: [sql] is the statement of the record's own kind. *)
Definition sql (d : DML) : stmt :=
  match Tp d with
  | InsertDMLType => ("INSERT INTO " +:+ Table d +:+ " VALUES (?)", cells (Values d) d)
  | UpdateDMLType =>
      ("UPDATE " +:+ Table d +:+ " SET row = ? WHERE key = ?",
       cells (Values d) d ++ keyCells (OldValues d) d)
  | DeleteDMLType => deleteSQL d
  end.

Definition quoteSchema (db table : string) : string := db +:+ "." +:+ table.
Definition buildColumnList (cols : list string) : string := String.concat "," cols.
Definition holderString (n : Z) : string := String.concat "," (replicate (Z.to_nat n) "?").

(** Modelled from the spec: [splitDMLs] cuts the bucket, in order, into
    sub-batches of at most [size] records.  The spec says nothing of a size
    below one; this instance then makes no sub-batch. *)
Fixpoint chunks (fuel : nat) (size : nat) (dmls : list DML) : list (list DML) :=
  match fuel, dmls with
  | O, _ | _, [] => []
  | S fuel', _ => take size dmls :: chunks fuel' size (drop size dmls)
  end.

Definition splitDMLs (dmls : list DML) (size : Z) : list (list DML) :=
  if bool_decide (size <= 0) then [] else chunks (length dmls) (Z.to_nat size) dmls.

Definition exe : executor := {| batchSize := 2; queryHistogramVec := false |}.

(** A database whose first [n] statements fail with "boom" and whose other
    calls succeed; transactions are numbered by the [Begin]s so far; the
    scheduler takes turns by [picks]. *)
Definition flaky (n : nat) (picks : list nat) : world :=
  {| db_begin h := Ok (length (begins h));
     db_exec h _ _ _ :=
       if bool_decide (length (execs h) < n)%nat then Some (Foreign "boom") else None;
     db_commit _ _ := None;
     db_rollback _ _ := None;
     schedule _ := picks |}.

(** A database that refuses every statement, with the statement's text as
    the error. *)
Definition refusing (picks : list nat) : world :=
  {| db_begin h := Ok (length (begins h));
     db_exec _ _ q _ := Some (Foreign q);
     db_commit _ _ := None;
     db_rollback _ _ := None;
     schedule _ := picks |}.

(** A record of a table with no key column. *)
Definition keyless : DML :=
  {| Database := "test"; Table := "log"; Tp := InsertDMLType;
     Values := {["line" := VStr "x"]}; OldValues := ∅;
     info := {| columns := ["line"]; keyColumns := [] |} |}.

(** An insert into another table of the same database. *)
Definition insertOther (id : Z) (v : string) : DML :=
  {| Database := "test"; Table := "u"; Tp := InsertDMLType;
     Values := row id v; OldValues := ∅; info := tinfo |}.

(** The two scenarios of the spec for the merge. *)
Definition scenario : list DML :=
  [insert 1 "a"; update 1 "a" "b"; delete 2 "z"; insert 2 "c"].

End Demo.

(** ** Two binlog files and a downstream that refuses one statement *)

Module RestoreDemo.
Import Errors Restore.

Definition readBinlogNames (dir : string) : result (list string) :=
  Ok ["binlog-0"; "binlog-1"].

Definition searchFileIndex (names : list string) (name : string) : Z := 0.

Definition Join (dir name : string) : string := dir +:+ "/" +:+ name.

Definition OpenFile (path : string) : result reader :=
  if decide (path = "data/binlog-0") then Ok [Ok "a"; Ok "b"]
  else if decide (path = "data/binlog-1") then Ok [Ok "c"]
  else Err (Foreign "no such file").

Definition Translate (p : payload) : result translation := Ok ([p], [[]], true).

Definition IgnoreDDLError (err : error) : bool :=
  bool_decide (err = Foreign "table already exists").

(** A downstream that answers [refusal] to the statement "b". *)
Definition Execute (refusal : error) (h : trace) (sqls : list string)
    (args : list (list value)) (isDDL : bool) : option error :=
  if decide (sqls = ["b"]) then Some refusal else None.

Definition run (refusal : error) : outcome * trace :=
  Start readBinlogNames searchFileIndex Join OpenFile Translate IgnoreDDLError
    (Execute refusal) "data" [].

End RestoreDemo.

(** ** Facts about package [loader] *)

Module LoaderFacts.
Import Errors Loader.

Lemma Trace_None (r : option error) : Trace r = None <-> r = None.
Proof. destruct r; simpl; split; congruence. Qed.

Lemma tx_run_shape (tx : txid) (plan : list stmt) (u : trace) (res : option error) :
  tx_run tx plan u res -> committed tx plan u res \/ aborted tx plan u res.
Proof.
  induction 1 as [rc|s plan t res Hrun [(rc & -> & ->)|(done & s' & rest & err & r & -> & -> & ->)]
                 |s plan err r].
  - left. by exists rc.
  - left. by exists rc.
  - right. by exists (s :: done), s', rest, err, r.
  - right. by exists [], s, plan, err, r.
Qed.

Lemma execs_app (t1 t2 : trace) : execs (t1 ++ t2) = execs t1 ++ execs t2.
Proof. apply omap_app. Qed.

Lemma commits_app (t1 t2 : trace) : commits (t1 ++ t2) = commits t1 ++ commits t2.
Proof. apply omap_app. Qed.

Lemma rollbacks_app (t1 t2 : trace) : rollbacks (t1 ++ t2) = rollbacks t1 ++ rollbacks t2.
Proof. apply omap_app. Qed.

Lemma sleeps_app (t1 t2 : trace) : sleeps (t1 ++ t2) = sleeps t1 ++ sleeps t2.
Proof. apply omap_app. Qed.

Lemma dones_app (t1 t2 : trace) : dones (t1 ++ t2) = dones t1 ++ dones t2.
Proof. apply omap_app. Qed.

Lemma execs_ran (tx : txid) (done : list stmt) : execs (ran tx done) = succeeded tx <$> done.
Proof. induction done as [|[q args] done IH]; simpl; [done|]. by f_equal. Qed.

Lemma commits_ran (tx : txid) (done : list stmt) : commits (ran tx done) = [].
Proof. by induction done. Qed.

Lemma rollbacks_ran (tx : txid) (done : list stmt) : rollbacks (ran tx done) = [].
Proof. by induction done. Qed.

Lemma execs_db_events (t : trace) : execs (db_events t) = execs t.
Proof. induction t as [|[] t IH]; simpl; first [done | by f_equal]. Qed.

Lemma commits_db_events (t : trace) : commits (db_events t) = commits t.
Proof. induction t as [|[] t IH]; simpl; first [done | by f_equal]. Qed.

Lemma rollbacks_db_events (t : trace) : rollbacks (db_events t) = rollbacks t.
Proof. induction t as [|[] t IH]; simpl; first [done | by f_equal]. Qed.

Lemma elem_of_execs (t : trace) tx q args r :
  EvExec tx q args r ∈ t <-> (tx, (q, args), r) ∈ execs t.
Proof.
  unfold execs. rewrite list_elem_of_omap. split.
  - intros H. by exists (EvExec tx q args r).
  - intros (ev & Hin & Heq). destruct ev; simplify_eq. done.
Qed.

Lemma elem_of_commits (t : trace) tx rc :
  EvCommit tx rc ∈ t <-> (tx, rc) ∈ commits t.
Proof.
  unfold commits. rewrite list_elem_of_omap. split.
  - intros H. by exists (EvCommit tx rc).
  - intros (ev & Hin & Heq). destruct ev; simplify_eq. done.
Qed.

Lemma succeeded_not_failed (tx tx' : txid) (done : list stmt) (s : stmt) (err : error) :
  (tx', s, Some err) ∉ succeeded tx <$> done.
Proof. rewrite list_elem_of_fmap. by intros (s' & Heq & _). Qed.

Lemma batch_run_voided_or_whole (plan : list stmt) (t : trace) (res : option error) :
  batch_run plan (db_events t) res -> voided_or_whole plan t res.
Proof.
  intros Hrun. unfold voided_or_whole.
  setoid_rewrite elem_of_execs. setoid_rewrite elem_of_commits.
  rewrite <- (execs_db_events t), <- (commits_db_events t), <- (rollbacks_db_events t).
  inversion Hrun as [Hplan Hu Hres|err Hu Hres|tx u res' Htx Hu Hres]; simpl.
  - split; intros; exfalso; eapply not_elem_of_nil; eauto.
  - split; intros; exfalso; eapply not_elem_of_nil; eauto.
  - apply tx_run_shape in Htx as [(rc & -> & ->)|(done & s & rest & err & r & -> & -> & ->)].
    + rewrite execs_app, commits_app, rollbacks_app, execs_ran, commits_ran, rollbacks_ran.
      simpl. rewrite app_nil_r. split.
      * intros tx' q args err Hin. by apply succeeded_not_failed in Hin.
      * intros tx' rc' Hin. apply list_elem_of_singleton in Hin. by simplify_eq.
    + rewrite execs_app, commits_app, rollbacks_app, execs_ran, commits_ran, rollbacks_ran.
      simpl. split.
      * intros tx' q args err' Hin. apply elem_of_app in Hin as [Hin|Hin].
        { by apply succeeded_not_failed in Hin. }
        apply list_elem_of_singleton in Hin. destruct s as [q' args']. simplify_eq.
        simpl. repeat split; eauto.
        exists (EvBegin (Ok tx) :: ran tx done), r. done.
      * intros tx' rc' Hin. exfalso. eapply not_elem_of_nil; eauto.
Qed.

Section RetryFacts.

Variable body : M (option error).
Variable finish : option error -> option error.
Variable backoff : Z.

Local Abbreviation retry_loop := (Loader.retry_loop body finish backoff).

Lemma attempts_positive (n : nat) (h t : trace) (r : option error) :
  attempts body backoff n h t r -> (1 <= n)%nat.
Proof. inversion 1; lia. Qed.

Lemma attempts_sleeps (n : nat) (h t : trace) (r : option error) :
  (forall h', sleeps (body h').2 = []) ->
  attempts body backoff n h t r ->
  sleeps t = replicate (n - 1) backoff.
Proof.
  intros Hbody. induction 1 as [h r t Hrun|n h t err r t' Hprev IH Hrun].
  - specialize (Hbody h). by rewrite Hrun in Hbody.
  - specialize (Hbody (h ++ t ++ [EvSleep backoff])). rewrite Hrun in Hbody.
    simpl in Hbody. rewrite sleeps_app. simpl. rewrite IH, Hbody.
    apply attempts_positive in Hprev. destruct n as [|n]; [lia|]. simpl.
    rewrite Nat.sub_0_r. by rewrite <- replicate_S_end.
Qed.

(** After [n] failed attempts, [k] more turns of the loop. *)
Lemma retry_loop_more (k : nat) (i : Z) (n : nat) (h t : trace) (err : error) :
  1 <= i ->
  attempts body backoff n h t (Some err) ->
  let '(res, t') := retry_loop (seqZ i (Z.of_nat k)) (Some err) (h ++ t) in
  exists m r,
    (n <= m <= n + k)%nat /\
    attempts body backoff m h (t ++ t') r /\
    (r = None /\ res = None \/
     exists err', r = Some err' /\ m = (n + k)%nat /\ res = finish (Some err')).
Proof.
  revert i n t err. induction k as [|k IH]; intros i n t err Hi Hprev.
  - simpl. exists n, (Some err). rewrite app_nil_r.
    split; [lia|]. split; [done|]. right. exists err. split; [done|]. split; [lia|done].
  - rewrite seqZ_cons by lia. cbn [retry_loop].
    rewrite bool_decide_eq_true_2 by lia.
    unfold M_bind at 1. unfold sleep at 1. unfold M_bind at 1.
    destruct (body ((h ++ t) ++ [EvSleep backoff])) as [r t1] eqn:Hrun.
    rewrite <- (app_assoc h t) in Hrun.
    pose proof (attempts_again body backoff n h t err r t1 Hprev Hrun) as Hnext.
    destruct r as [err1|].
    + replace (Z.pred (Z.of_nat (S k))) with (Z.of_nat k) by lia.
      specialize (IH (Z.succ i) (S n) (t ++ EvSleep backoff :: t1) err1 ltac:(lia) Hnext).
      replace (((h ++ t) ++ [EvSleep backoff]) ++ t1)
        with (h ++ t ++ EvSleep backoff :: t1)
        by (rewrite <- !app_assoc; done).
      destruct (retry_loop _ _ _) as [res t2].
      destruct IH as (m & r & Hm & Hatt & Hres).
      exists m, r. split; [lia|]. split.
      { rewrite <- app_assoc in Hatt. exact Hatt. }
      destruct Hres as [Hres|(err' & -> & -> & ->)]; [by left|].
      right. exists err'. split; [done|]. split; [lia|done].
    + simpl. exists (S n), None. rewrite app_nil_r.
      split; [lia|]. split; [done|]. by left.
Qed.

(** The whole loop, for a positive count. *)
Lemma retry_loop_attempts (retryNum : Z) (err0 : option error) (h : trace) :
  1 <= retryNum ->
  let '(res, t) := retry_loop (seqZ 0 retryNum) err0 h in
  exists n r,
    (1 <= n <= Z.to_nat retryNum)%nat /\
    attempts body backoff n h t r /\
    (r = None /\ res = None \/
     exists err, r = Some err /\ n = Z.to_nat retryNum /\ res = finish (Some err)).
Proof.
  intros Hn. rewrite seqZ_cons by lia. cbn [retry_loop].
  rewrite bool_decide_eq_false_2 by lia.
  unfold M_bind at 1. unfold M_ret at 1. unfold M_bind at 1.
  rewrite app_nil_r.
  destruct (body h) as [r t1] eqn:Hrun.
  pose proof (attempts_first body backoff h r t1 Hrun) as Hfirst.
  destruct r as [err1|].
  - pose proof (retry_loop_more (Z.to_nat (Z.pred retryNum)) (Z.succ 0) 1 h t1 err1
                  ltac:(lia) Hfirst) as Hmore.
    rewrite Z2Nat.id in Hmore by lia.
    destruct (retry_loop _ _ _) as [res t2].
    destruct Hmore as (m & r & Hm & Hatt & Hres).
    simpl. exists m, r. split; [lia|]. split; [done|].
    destruct Hres as [Hres|(err' & -> & -> & ->)]; [by left|].
    right. exists err'. split; [done|]. split; [lia|done].
  - simpl. exists 1%nat, None. rewrite app_nil_r.
    split; [lia|]. split; [done|]. by left.
Qed.

Lemma retry_loop_nil (retryNum : Z) (err0 : option error) (h : trace) :
  retryNum <= 0 -> retry_loop (seqZ 0 retryNum) err0 h = (finish err0, []).
Proof. intros Hn. by rewrite seqZ_nil. Qed.

End RetryFacts.

Section ExecutorFacts.

Variables sql deleteSQL replaceSQL : DML -> stmt.
Variable quoteSchema : string -> string -> string.
Variable buildColumnList : list string -> string.
Variable holderString : Z -> string.
Variable splitDMLs : list DML -> Z -> list (list DML).
Variable w : world.
Variable e : executor.

Local Abbreviation statementsOf := (Loader.statementsOf sql deleteSQL replaceSQL).
Local Abbreviation singleExec_plan := (Loader.singleExec_plan sql deleteSQL replaceSQL).
Local Abbreviation bulkDelete_plan := (Loader.bulkDelete_plan sql).
Local Abbreviation bulkReplace_plan :=
  (Loader.bulkReplace_plan quoteSchema buildColumnList holderString).
Local Abbreviation bucket_stmts := (Loader.bucket_stmts splitDMLs e).
Local Abbreviation bucket_phase := (Loader.bucket_phase splitDMLs w e).

Lemma run_act_bind {A B : Type} (m : act A) (f : A -> act B) (h : trace) :
  run_act w (act_bind m f) h =
  let '(a, t) := run_act w m h in
  let '(b, t') := run_act w (f a) (h ++ t) in
  (b, t ++ t').
Proof.
  revert h.
  induction m as [a|k IH|tx q args k IH|tx k IH|tx k IH|l fmt ops k IH|name k IH];
    intros h; simpl.
  { rewrite app_nil_r. by destruct (run_act w (f a) h). }
  all: rewrite IH;
    match goal with
    | |- context [run_act w ?x (?h0 ++ [?ev])] =>
        destruct (run_act w x (h0 ++ [ev])) as [a t];
        simpl; rewrite <- (app_assoc h0 [_] t); simpl; by destruct (run_act w (f a) _)
    end.
Qed.

(** A goroutine alone neither sleeps nor reports a goroutine's return. *)
Lemma run_act_sleeps_dones {A : Type} (a : act A) (h : trace) :
  sleeps (run_act w a h).2 = [] /\ dones (run_act w a h).2 = [].
Proof.
  revert h. induction a; intros h; simpl; auto.
Qed.

(** **** One transaction per batch *)

(** The three ends of [bulkDelete] and [bulkReplace], once the histogram's
    presence is known. *)
Local Ltac one_statement_batch :=
  destruct (queryHistogramVec e); simpl;
  (destruct (db_begin w _) as [id|err]; simpl; [|split; [apply batch_no_tx|done]]);
  (destruct (db_exec w _ id _ _) as [err|]; simpl;
   [split; [apply batch_tx; apply (tx_run_abort id (_, _))|split; [split; set_solver|done]]|]);
  destruct (db_commit w _ id) as [err|]; simpl;
  (split; [|done]); apply batch_tx; apply (tx_run_next id (_, _));
  first [exact (tx_run_commit id (Some err)) | exact (tx_run_commit id None)].

Lemma bulkDelete_run (deletes : list DML) (h : trace) :
  let '(res, t) := run_act w (bulkDelete sql e deletes) h in
  batch_run (bulkDelete_plan deletes) (db_events t) res /\ failures_logged t.
Proof.
  unfold bulkDelete, Loader.bulkDelete_plan. simpl. one_statement_batch.
Qed.

Lemma bulkReplace_run (inserts : list DML) (h : trace) :
  let '(res, t) :=
    run_act w (bulkReplace quoteSchema buildColumnList holderString e inserts) h in
  batch_run (bulkReplace_plan inserts) (db_events t) res /\ failures_logged t.
Proof.
  destruct inserts as [|first rest]; simpl.
  { split; [by apply batch_skipped|done]. }
  one_statement_batch.
Qed.

Lemma singleExec_stmt_run (tx : tx) (debug : string) (s : stmt) (h : trace) :
  let line := EvLog LDebug (Some debug) [LStr s.1; LArgs s.2] in
  let seen := if txQueryHistogramVec tx then [EvObserve "exec"] else [] in
  run_act w (singleExec_stmt tx debug s) h =
  match db_exec w (h ++ [line]) (Tx tx) s.1 s.2 with
  | None => (None, [line; EvExec (Tx tx) s.1 s.2 None] ++ seen)
  | Some err =>
      let say := EvLog LError (Some "err: %v, exec dml sql: %s, args: %v")
                   [LErr err; LStr s.1; LArgs s.2] in
      let failed := EvExec (Tx tx) s.1 s.2 (Some err) in
      (Some (Traced err),
       [line; failed] ++ seen ++
       [say; EvRollback (Tx tx) (db_rollback w (h ++ [line; failed] ++ seen ++ [say]) (Tx tx))])
  end.
Proof.
  destruct tx as [id [|]]; simpl; destruct (db_exec w _ id _ _); simpl;
    by rewrite <- ?app_assoc.
Qed.

Lemma singleExec_loop_run (tx : tx) (dmls : list DML) (safeMode : bool) (h : trace) :
  let '(res, t) := run_act w (singleExec_loop sql deleteSQL replaceSQL tx dmls safeMode) h in
  tx_run (Tx tx) (singleExec_plan safeMode dmls) (db_events t) res /\ failures_logged t.
Proof.
  revert h. induction dmls as [|dml rest IH]; intros h.
  { simpl. destruct (txQueryHistogramVec tx); simpl; (split; [|done]); apply tx_run_commit. }
  assert (Hstep : forall debug s todo plan h,
    (forall h', let '(res, t) := run_act w plan h' in
                tx_run (Tx tx) todo (db_events t) res /\ failures_logged t) ->
    let '(res, t) :=
      run_act w (do err <- singleExec_stmt tx debug s;
                 match err with Some _ => Ret err | None => plan end)%act h in
    tx_run (Tx tx) (s :: todo) (db_events t) res /\ failures_logged t).
  { clear h. intros debug s todo plan h Hplan.
    rewrite run_act_bind, singleExec_stmt_run. cbv zeta.
    destruct (db_exec w _ (Tx tx) _ _) as [err|].
    - destruct (txQueryHistogramVec tx); simpl;
        (split; [apply tx_run_abort|]); (split; [split; set_solver|done]).
    - match goal with |- context [run_act w plan ?h'] => specialize (Hplan h') end.
      destruct (run_act w plan _) as [res t].
      destruct Hplan as [Hrun Hlog].
      destruct (txQueryHistogramVec tx); simpl; (split; [by apply tx_run_next|done]). }
  unfold Loader.singleExec_plan. simpl flat_map.
  fold (Loader.singleExec_plan sql deleteSQL replaceSQL safeMode rest).
  cbn [singleExec_loop]. unfold Loader.statementsOf.
  destruct safeMode; simpl andb; [destruct (Tp dml) eqn:Htp|]; simpl app.
  - rewrite bool_decide_eq_false_2 by done. rewrite bool_decide_eq_true_2 by done.
    by apply Hstep.
  - rewrite bool_decide_eq_true_2 by done.
    apply Hstep. intros h'. by apply Hstep.
  - rewrite !bool_decide_eq_false_2 by done. by apply Hstep.
  - by apply Hstep.
Qed.

Lemma singleExec_run (dmls : list DML) (safeMode : bool) (h : trace) :
  let '(res, t) := run_act w (singleExec sql deleteSQL replaceSQL e dmls safeMode) h in
  batch_run (singleExec_plan safeMode dmls) (db_events t) res /\ failures_logged t.
Proof.
  unfold singleExec. simpl.
  destruct (db_begin w h) as [id|err]; simpl.
  - pose proof (singleExec_loop_run
                  {| Tx := id; txQueryHistogramVec := queryHistogramVec e |}
                  dmls safeMode (h ++ [EvBegin (Ok id)])) as H.
    destruct (run_act w _ _) as [res t]. simpl. destruct H as [Hrun Hlog].
    split; [by apply batch_tx|done].
  - split; [apply batch_no_tx|done].
Qed.

(** **** Goroutine groups *)

Lemma first_error_assoc (a b c : option error) :
  first_error (first_error a b) c = first_error a (first_error b c).
Proof. by destruct a. Qed.

Lemma first_failure_None (rs : list (option error)) :
  first_failure rs = None <-> Forall (fun r => r = None) rs.
Proof.
  induction rs as [|[err|] rs IH]; simpl.
  - split; [constructor|done].
  - split; [done|]. by inversion 1.
  - rewrite IH. split; [by constructor|by inversion 1].
Qed.

Lemma first_failure_Some (rs : list (option error)) (err : error) :
  first_failure rs = Some err ->
  exists before after,
    rs = before ++ Some err :: after /\ Forall (fun r => r = None) before.
Proof.
  induction rs as [|[err'|] rs IH]; simpl; [done| |].
  - intros [= ->]. by exists [], rs.
  - intros (before & after & -> & Hb)%IH.
    exists (None :: before), after. split; [done|by constructor].
Qed.

Lemma step_act_event {A : Type} (a a' : act A) (h : trace) (ev : event) :
  step_act w a h = inl (ev, a') -> sleeps [ev] = [] /\ dones [ev] = [].
Proof. destruct a; simpl; intros [= <- <-]; done. Qed.

Lemma drain_spec (ths : list (nat * act (option error))) (slot : option error) (h : trace) :
  let '(res, t) := drain w ths slot h in
  res = first_error slot (first_failure (dones t).*2) /\
  (dones t).*1 = ths.*1 /\
  sleeps t = [].
Proof.
  revert slot h. induction ths as [|[id a] ths IH]; intros slot h; simpl.
  { by destruct slot. }
  pose proof (run_act_sleeps_dones a h) as [Hs Hd].
  destruct (run_act w a h) as [r t]. simpl in Hs, Hd.
  specialize (IH (first_error slot r) (h ++ t ++ [EvDone id r])).
  destruct (drain w ths _ _) as [res t']. destruct IH as (-> & Hids & Hsl).
  rewrite dones_app, sleeps_app, Hs, Hd. simpl.
  split; [apply first_error_assoc|]. split; [f_equal; exact Hids|exact Hsl].
Qed.

Lemma run_group_spec (picks : list nat) (ths : list (nat * act (option error)))
    (slot : option error) (h : trace) :
  let '(res, t) := run_group w picks ths slot h in
  res = first_error slot (first_failure (dones t).*2) /\
  (dones t).*1 ≡ₚ ths.*1 /\
  sleeps t = [].
Proof.
  revert ths slot h. induction picks as [|p picks IH]; intros ths slot h; simpl.
  { pose proof (drain_spec ths slot h) as H.
    destruct (drain w ths slot h) as [res t]. destruct H as (-> & -> & ->). done. }
  destruct (ths !! (p mod length ths)%nat) as [[id a]|] eqn:Hlook.
  - destruct (step_act w a h) as [[ev a']|r] eqn:Hstep.
    + specialize (IH (<[(p mod length ths)%nat := (id, a')]> ths) slot (h ++ [ev])).
      destruct (run_group w picks _ _ _) as [res t]. unfold emit. cbn [fst snd].
      destruct IH as (-> & Hids & Hsl).
      apply step_act_event in Hstep as [Hs Hd].
      change (ev :: t) with ([ev] ++ t).
      rewrite dones_app, sleeps_app, Hs, Hd. simpl.
      rewrite list_fmap_insert in Hids. simpl in Hids.
      rewrite list_insert_id in Hids; [done|].
      by rewrite list_lookup_fmap, Hlook.
    + specialize (IH (delete (p mod length ths)%nat ths) (first_error slot r)
                     (h ++ [EvDone id r])).
      destruct (run_group w picks _ _ _) as [res t]. unfold emit. cbn [fst snd].
      destruct IH as (-> & Hids & Hsl).
      change (EvDone id r :: t) with ([EvDone id r] ++ t).
      rewrite dones_app, sleeps_app. simpl.
      split; [apply first_error_assoc|]. split; [|done].
      apply (delete_Permutation _ _ (id, a)) in Hlook.
      symmetry. etrans; [apply (fmap_Permutation fst), Hlook|].
      simpl. constructor. by symmetry.
  - apply lookup_ge_None in Hlook.
    destruct ths as [|th ths]; [by destruct slot|].
    exfalso. pose proof (Nat.mod_upper_bound p (length (th :: ths))) as Hlt.
    simpl in *. lia.
Qed.

Lemma goroutine_ids {A B : Type} (f : A -> B) (l : list A) :
  (imap (fun i x => (i, f x)) l).*1 = seq 0 (length l).
Proof.
  rewrite fmap_imap. rewrite (imap_ext _ (fun i _ => i)); [|done].
  rewrite imap_seq_0. by rewrite list_fmap_id.
Qed.

Lemma splitExecDML_spec (dmls : list DML) (exec : list DML -> act (option error))
    (h : trace) :
  let '(res, t) := splitExecDML splitDMLs w e dmls exec h in
  res = Trace (first_failure (dones t).*2) /\
  (dones t).*1 ≡ₚ seq 0 (length (splitDMLs dmls (batchSize e))) /\
  sleeps t = [].
Proof.
  unfold splitExecDML.
  pose proof (run_group_spec (schedule w h)
    (imap (fun i split => (i, (do err <- exec split; Ret (Trace err))%act))
          (splitDMLs dmls (batchSize e))) None h) as H.
  destruct (run_group w _ _ _ _) as [res t]. destruct H as (-> & Hids & Hsl).
  rewrite goroutine_ids in Hids. done.
Qed.

(** **** Which statements a goroutine may run *)

Lemma calls_in_bind {A B : Type} (S : stmt -> Prop) (m : act A) (f : A -> act B) :
  calls_in S m -> (forall x, calls_in S (f x)) -> calls_in S (act_bind m f).
Proof.
  intros Hm Hf.
  induction m as [a|k IH|tx q args k IH|tx k IH|tx k IH|l fmt ops k IH|name k IH];
    simpl in *; auto.
  destruct Hm as [Hs Hk]. split; auto.
Qed.

Lemma calls_in_step {A : Type} (S : stmt -> Prop) (a a' : act A) (h : trace) (ev : event) :
  calls_in S a -> step_act w a h = inl (ev, a') ->
  calls_in S a' /\ Forall (fun x => S x.1.2) (execs [ev]).
Proof.
  destruct a; simpl; intros Hin [= <- <-]; simpl; try (split; [by auto|by constructor]).
  destruct Hin as [Hs Hk]. split; [done|]. by repeat constructor.
Qed.

Lemma calls_in_run {A : Type} (S : stmt -> Prop) (a : act A) (h : trace) :
  calls_in S a -> Forall (fun x => S x.1.2) (execs (run_act w a h).2).
Proof.
  revert h. induction a; intros h; simpl; intros Hin; try by auto.
  destruct Hin as [Hs Hk]. constructor; [done|by auto].
Qed.

Lemma calls_in_drain (S : stmt -> Prop) (ths : list (nat * act (option error)))
    (slot : option error) (h : trace) :
  Forall (fun th => calls_in S th.2) ths ->
  Forall (fun x => S x.1.2) (execs (drain w ths slot h).2).
Proof.
  revert slot h. induction ths as [|[id a] ths IH]; intros slot h Hths; simpl.
  { constructor. }
  apply Forall_cons in Hths as [Ha Hths].
  pose proof (calls_in_run S a h Ha) as Hrun.
  destruct (run_act w a h) as [r t]. simpl in Hrun.
  specialize (IH (first_error slot r) (h ++ t ++ [EvDone id r]) Hths).
  destruct (drain w ths _ _) as [res t']. simpl in *.
  rewrite execs_app. apply Forall_app. split; [done|]. simpl. done.
Qed.

Lemma calls_in_group (S : stmt -> Prop) (picks : list nat)
    (ths : list (nat * act (option error))) (slot : option error) (h : trace) :
  Forall (fun th => calls_in S th.2) ths ->
  Forall (fun x => S x.1.2) (execs (run_group w picks ths slot h).2).
Proof.
  revert ths slot h. induction picks as [|p picks IH]; intros ths slot h Hths; simpl.
  { by apply calls_in_drain. }
  destruct (ths !! (p mod length ths)%nat) as [[id a]|] eqn:Hlook; [|constructor].
  pose proof (Forall_lookup_1 _ _ _ _ Hths Hlook) as Ha. simpl in Ha.
  destruct (step_act w a h) as [[ev a']|r] eqn:Hstep.
  - apply (calls_in_step S) in Hstep as [Ha' Hev]; [|done].
    unfold emit. cbn [fst snd]. change (ev :: ?t) with ([ev] ++ t).
    rewrite execs_app. apply Forall_app. split; [done|].
    apply IH. by apply Forall_insert.
  - unfold emit. cbn [fst snd]. change (EvDone id r :: ?t) with ([EvDone id r] ++ t).
    rewrite execs_app. apply Forall_app. split; [constructor|].
    apply IH. by apply Forall_delete.
Qed.

Lemma bulkDelete_calls (deletes : list DML) :
  calls_in (fun s => s ∈ bulkDelete_plan deletes) (bulkDelete sql e deletes).
Proof.
  unfold bulkDelete, Loader.bulkDelete_plan. simpl.
  destruct (queryHistogramVec e); intros [id|err]; simpl; [|done| |done];
    (split; [set_solver|]); intros [err|]; simpl; try done; by intros [err|].
Qed.

Lemma bulkReplace_calls (inserts : list DML) :
  calls_in (fun s => s ∈ bulkReplace_plan inserts)
    (bulkReplace quoteSchema buildColumnList holderString e inserts).
Proof.
  destruct inserts as [|first rest]; simpl; [done|].
  destruct (queryHistogramVec e); intros [id|err]; simpl; [|done| |done];
    (split; [set_solver|]); intros [err|]; simpl; try done; by intros [err|].
Qed.

Lemma splitExecDML_calls (plan : list DML -> list stmt) (all : list DML)
    (exec : list DML -> act (option error)) (h : trace) :
  (forall split, calls_in (fun s => s ∈ plan split) (exec split)) ->
  Forall (fun x => bucket_stmts plan all x.1.2)
    (execs (splitExecDML splitDMLs w e all exec h).2).
Proof.
  intros Hexec. unfold splitExecDML.
  pose proof (calls_in_group (bucket_stmts plan all) (schedule w h)
    (imap (fun i split => (i, (do err <- exec split; Ret (Trace err))%act))
          (splitDMLs all (batchSize e))) None h) as H.
  destruct (run_group w _ _ _ _) as [res t]. simpl in *. apply H.
  apply Forall_forall. intros [i a] Hin.
  apply list_elem_of_lookup in Hin as [j Hj].
  rewrite list_lookup_imap in Hj.
  destruct (splitDMLs all (batchSize e) !! j) as [split|] eqn:Hsplit; simplify_eq/=.
  apply calls_in_bind; [|done].
  assert (Hmono : forall (S S' : stmt -> Prop) (a : act (option error)),
             (forall s, S s -> S' s) -> calls_in S a -> calls_in S' a).
  { intros S S' a HS Ha.
    induction a as [x|k IH|tx q args k IH|tx k IH|tx k IH|l fmt ops k IH|name k IH];
      simpl in *; auto.
    destruct Ha as [Hs Hk]. split; auto. }
  eapply Hmono; [|apply Hexec]. intros s Hs. exists split. split; [|done].
  by eapply list_elem_of_lookup_2.
Qed.

(** **** The buckets of [execTableBatch] *)

Lemma execBucket_phase (types : gmap DMLType (list DML)) (tp : DMLType)
    (exec : list DML -> act (option error)) (plan : list DML -> list stmt) (h : trace) :
  (forall split, calls_in (fun s => s ∈ plan split) (exec split)) ->
  bucket_phase types tp exec plan h
    (execBucket splitDMLs w e types tp exec h).1 (execBucket splitDMLs w e types tp exec h).2.
Proof.
  intros Hexec. unfold bucket_phase.
  split; [by destruct (execBucket _ _ _ _ _ _ _)|].
  unfold execBucket. destruct (types !! tp) as [all|]; simpl.
  - unfold M_bind, M_ret.
    pose proof (splitExecDML_spec all exec h) as Hspec.
    pose proof (splitExecDML_calls plan all exec h Hexec) as Hcalls.
    destruct (splitExecDML splitDMLs w e all exec h) as [r t].
    destruct Hspec as (-> & Hids & Hsl). simpl in *. rewrite app_nil_r. done.
  - unfold M_ret. simpl. repeat split; constructor.
Qed.

Lemma execTableBatch_unfold (dmls : list DML) (h : trace) :
  execTableBatch sql quoteSchema buildColumnList holderString splitDMLs w e dmls h =
  match dmls, mergeByPrimaryKey dmls with
  | [], _ => (None, [])
  | _, Err err => (Some (Traced err), [])
  | _, Ok types =>
      let line := EvLog LDebug (Some "dmls: %v after merge: %v") [LDMLs dmls; LTypes types] in
      let '(rD, tD) := execBucket splitDMLs w e types DeleteDMLType (bulkDelete sql e) (h ++ [line]) in
      match rD with
      | Some _ => (rD, line :: tD)
      | None =>
          let '(rI, tI) :=
            execBucket splitDMLs w e types InsertDMLType
              (bulkReplace quoteSchema buildColumnList holderString e) (h ++ line :: tD) in
          match rI with
          | Some _ => (rI, line :: tD ++ tI)
          | None =>
              let '(rU, tU) :=
                execBucket splitDMLs w e types UpdateDMLType
                  (bulkReplace quoteSchema buildColumnList holderString e)
                  (h ++ line :: tD ++ tI) in
              (rU, line :: tD ++ tI ++ tU)
          end
      end
  end.
Proof.
  destruct dmls as [|d dmls]; [done|]. unfold execTableBatch.
  destruct (mergeByPrimaryKey (d :: dmls)) as [types|err]; [|done].
  unfold M_bind, M_logf, M_ret. simpl.
  destruct (execBucket _ _ _ _ DeleteDMLType _ _) as [[errD|] tD]; simpl.
  { by rewrite app_nil_r. }
  rewrite <- (app_assoc h [_] tD). simpl.
  destruct (execBucket _ _ _ _ InsertDMLType _ _) as [[errI|] tI]; simpl.
  { by rewrite app_nil_r. }
  rewrite <- (app_assoc h (_ :: tD) tI). simpl.
  destruct (execBucket _ _ _ _ UpdateDMLType _ _) as [[errU|] tU]; simpl;
    by rewrite app_nil_r.
Qed.

Lemma execTableBatch_sleeps (dmls : list DML) (h : trace) :
  sleeps (execTableBatch sql quoteSchema buildColumnList holderString splitDMLs w e dmls h).2
  = [].
Proof.
  rewrite execTableBatch_unfold. destruct dmls as [|d dmls]; [done|].
  destruct (mergeByPrimaryKey (d :: dmls)) as [types|err]; [|done].
  cbv zeta.
  pose proof (execBucket_phase types DeleteDMLType (bulkDelete sql e) bulkDelete_plan
                (h ++ [EvLog LDebug (Some "dmls: %v after merge: %v")
                         [LDMLs (d :: dmls); LTypes types]]) bulkDelete_calls) as HD.
  destruct (execBucket _ _ _ _ DeleteDMLType _ _) as [rD tD].
  destruct HD as (_ & _ & _ & _ & HsD). simpl in HsD.
  destruct rD as [errD|]; [done|].
  match goal with |- context [execBucket _ _ _ _ InsertDMLType _ ?h'] =>
    pose proof (execBucket_phase types InsertDMLType
                  (bulkReplace quoteSchema buildColumnList holderString e)
                  bulkReplace_plan h' bulkReplace_calls) as HI end.
  destruct (execBucket _ _ _ _ InsertDMLType _ _) as [rI tI].
  destruct HI as (_ & _ & _ & _ & HsI). simpl in HsI.
  destruct rI as [errI|]; simpl; [by rewrite sleeps_app, HsD, HsI|].
  match goal with |- context [execBucket _ _ _ _ UpdateDMLType _ ?h'] =>
    pose proof (execBucket_phase types UpdateDMLType
                  (bulkReplace quoteSchema buildColumnList holderString e)
                  bulkReplace_plan h' bulkReplace_calls) as HU end.
  destruct (execBucket _ _ _ _ UpdateDMLType _ _) as [rU tU].
  destruct HU as (_ & _ & _ & _ & HsU). simpl in HsU.
  simpl. by rewrite !sleeps_app, HsD, HsI, HsU.
Qed.

(** C2: [execTableBatch] applies the Delete bucket, then the Insert bucket,
    then the Update bucket.  All events of the Delete bucket, the return of
    each of its goroutines included, come before any event of the other two;
    the statements of each phase are those of its own bucket; when the Delete
    bucket fails nothing of the Insert and Update buckets runs, and when the
    Insert bucket fails nothing of the Update bucket runs. *)
Theorem execTableBatch_deletes_first (dmls : list DML) (h : trace) :
  let '(res, t) :=
    execTableBatch sql quoteSchema buildColumnList holderString splitDMLs w e dmls h in
  match dmls, mergeByPrimaryKey dmls with
  | [], _ => res = None /\ t = []
  | _, Err err => res = Some (Traced err) /\ t = []
  | _, Ok types =>
      let line := EvLog LDebug (Some "dmls: %v after merge: %v") [LDMLs dmls; LTypes types] in
      let upsert := bulkReplace quoteSchema buildColumnList holderString e in
      exists rD tD tI tU,
        t = line :: tD ++ tI ++ tU /\
        bucket_phase types DeleteDMLType (bulkDelete sql e) bulkDelete_plan (h ++ [line]) rD tD /\
        match rD with
        | Some _ => tI = [] /\ tU = [] /\ res = rD
        | None =>
            Forall (fun d => d.2 = None) (dones tD) /\
            exists rI,
              bucket_phase types InsertDMLType upsert bulkReplace_plan (h ++ line :: tD) rI tI /\
              match rI with
              | Some _ => tU = [] /\ res = rI
              | None =>
                  Forall (fun d => d.2 = None) (dones tI) /\
                  bucket_phase types UpdateDMLType upsert bulkReplace_plan
                    (h ++ line :: tD ++ tI) res tU
              end
        end
  end.
Proof.
  assert (Hnil : forall types tp exec plan h' t',
             bucket_phase types tp exec plan h' None t' ->
             Forall (fun d => d.2 = None) (dones t')).
  { intros types tp exec plan h' t' (_ & _ & _ & Hr & _).
    symmetry in Hr. apply Trace_None, Trace_None, first_failure_None in Hr.
    by apply Forall_fmap in Hr. }
  rewrite execTableBatch_unfold. destruct dmls as [|d dmls]; [done|].
  destruct (mergeByPrimaryKey (d :: dmls)) as [types|err]; [|done].
  cbv zeta.
  pose proof (execBucket_phase types DeleteDMLType (bulkDelete sql e) bulkDelete_plan
                (h ++ [EvLog LDebug (Some "dmls: %v after merge: %v")
                         [LDMLs (d :: dmls); LTypes types]]) bulkDelete_calls) as HD.
  destruct (execBucket _ _ _ _ DeleteDMLType _ _) as [rD tD]. simpl in HD.
  destruct rD as [errD|].
  { exists (Some errD), tD, [], []. by rewrite !app_nil_r. }
  match goal with |- context [execBucket _ _ _ _ InsertDMLType _ ?h'] =>
    pose proof (execBucket_phase types InsertDMLType
                  (bulkReplace quoteSchema buildColumnList holderString e)
                  bulkReplace_plan h' bulkReplace_calls) as HI end.
  destruct (execBucket _ _ _ _ InsertDMLType _ _) as [rI tI]. simpl in HI.
  destruct rI as [errI|].
  { exists None, tD, tI, []. rewrite !app_nil_r. split; [done|]. split; [done|].
    split; [by eapply Hnil|]. by exists (Some errI). }
  match goal with |- context [execBucket _ _ _ _ UpdateDMLType _ ?h'] =>
    pose proof (execBucket_phase types UpdateDMLType
                  (bulkReplace quoteSchema buildColumnList holderString e)
                  bulkReplace_plan h' bulkReplace_calls) as HU end.
  destruct (execBucket _ _ _ _ UpdateDMLType _ _) as [rU tU]. simpl in HU.
  exists None, tD, tI, tU. split; [done|]. split; [done|].
  split; [by eapply Hnil|]. exists None. split; [done|]. split; [by eapply Hnil|done].
Qed.

(** **** Safe mode *)

(** C3: [singleExec] opens one transaction and runs in it, in the order of
    the group, the statements planned for each record: with [safeMode] an
    update gives [deleteSQL()] then [replaceSQL()], an insert [replaceSQL()],
    a delete [sql()]; without it every record gives [sql()].  Each statement
    is checked on its own: the calls to the database (the trace without the
    logger's lines and the observations) are the [begin], a successful prefix
    of the plan, and then either the commit, or the first failing statement
    followed by the rollback, with that statement's error traced as the
    result. *)
Theorem singleExec_statement_plan (dmls : list DML) (safeMode : bool) (h : trace) :
  let '(res, t) := run_act w (singleExec sql deleteSQL replaceSQL e dmls safeMode) h in
  let plan :=
    flat_map (fun dml =>
                if safeMode then
                  match Tp dml with
                  | UpdateDMLType => [deleteSQL dml; replaceSQL dml]
                  | InsertDMLType => [replaceSQL dml]
                  | DeleteDMLType => [sql dml]
                  end
                else [sql dml]) dmls in
  match db_begin w h with
  | Err err => t = [EvBegin (Err err)] /\ res = Some (Traced (Traced err))
  | Ok tx =>
      exists u, db_events t = EvBegin (Ok tx) :: u /\
                (committed tx plan u res \/ aborted tx plan u res)
  end.
Proof.
  pose proof (singleExec_run dmls safeMode h) as Hrun.
  unfold singleExec in *. simpl in *.
  destruct (db_begin w h) as [tx|err]; simpl in *.
  - destruct (run_act w _ _) as [res t]. simpl in *. destruct Hrun as [Hrun _].
    inversion Hrun as [| |tx' u res' Htx]; subst.
    exists (db_events t). split; [done|]. by apply tx_run_shape.
  - done.
Qed.

(** C5: in [bulkDelete], [bulkReplace] and [singleExec] a statement that
    fails is the last statement of the batch to run; the rollback of its
    transaction is the next database call, no commit is made, and the
    statement's error is returned (traced).  A commit is made only after
    every statement of the batch ran and succeeded.  [tx.exec] itself makes
    one call to the database, the statement, and hands its error back; it
    never rolls back. *)
Theorem batch_voided_or_whole (deletes inserts dmls : list DML) (safeMode : bool)
    (t : tx) (query : string) (args : list value) (h : trace) :
  (let '(res, t) := run_act w (bulkDelete sql e deletes) h in
   voided_or_whole (bulkDelete_plan deletes) t res) /\
  (let '(res, t) :=
     run_act w (bulkReplace quoteSchema buildColumnList holderString e inserts) h in
   voided_or_whole (bulkReplace_plan inserts) t res) /\
  (let '(res, t) := run_act w (singleExec sql deleteSQL replaceSQL e dmls safeMode) h in
   voided_or_whole (singleExec_plan safeMode dmls) t res) /\
  run_act w (tx_exec t query args) h =
    (db_exec w h (Tx t) query args,
     EvExec (Tx t) query args (db_exec w h (Tx t) query args) ::
     (if txQueryHistogramVec t then [EvObserve "exec"] else [])).
Proof.
  split; [|split; [|split]].
  - pose proof (bulkDelete_run deletes h) as H.
    destruct (run_act w _ _) as [res t']. destruct H as [H _].
    by apply batch_run_voided_or_whole.
  - pose proof (bulkReplace_run inserts h) as H.
    destruct (run_act w _ _) as [res t']. destruct H as [H _].
    by apply batch_run_voided_or_whole.
  - pose proof (singleExec_run dmls safeMode h) as H.
    destruct (run_act w _ _) as [res t']. destruct H as [H _].
    by apply batch_run_voided_or_whole.
  - destruct t as [id [|]]; done.
Qed.

(** C8, as the code has it: when a statement fails in [bulkDelete],
    [bulkReplace] or [singleExec], an error line with the statement's text
    and arguments is written to the log at once, and the function returns
    the database's error wrapped by [errors.Trace] alone; the error is never
    dropped. *)
Theorem exec_error_logged_then_traced (deletes inserts dmls : list DML) (safeMode : bool)
    (h : trace) :
  let logged_and_traced (r : option error * trace) :=
    failures_logged r.2 /\
    forall tx q args err,
      EvExec tx q args (Some err) ∈ r.2 -> r.1 = Some (Traced err) in
  logged_and_traced (run_act w (bulkDelete sql e deletes) h) /\
  logged_and_traced (run_act w (bulkReplace quoteSchema buildColumnList holderString e inserts) h) /\
  logged_and_traced (run_act w (singleExec sql deleteSQL replaceSQL e dmls safeMode) h).
Proof.
  assert (Hgen : forall plan (r : option error * trace),
             batch_run plan (db_events r.2) r.1 /\ failures_logged r.2 ->
             failures_logged r.2 /\
             forall tx q args err,
               EvExec tx q args (Some err) ∈ r.2 -> r.1 = Some (Traced err)).
  { intros plan [res t] [Hrun Hlog]. split; [done|].
    intros tx q args err Hin.
    apply batch_run_voided_or_whole in Hrun as [Hfail _].
    destruct (Hfail tx q args err Hin) as (-> & _). done. }
  cbv zeta. split; [|split].
  - pose proof (bulkDelete_run deletes h) as H.
    destruct (run_act w _ _) as [res t] eqn:Heq. by apply (Hgen _ (res, t)) in H.
  - pose proof (bulkReplace_run inserts h) as H.
    destruct (run_act w _ _) as [res t] eqn:Heq. by apply (Hgen _ (res, t)) in H.
  - pose proof (singleExec_run dmls safeMode h) as H.
    destruct (run_act w _ _) as [res t] eqn:Heq. by apply (Hgen _ (res, t)) in H.
Qed.

(** C6: [splitExecDML] returns after every goroutine of the bucket has
    returned (each sub-batch, numbered by its place in the split, reports its
    return once); it returns nil exactly when every goroutine returned nil,
    and otherwise the error of the goroutine that was first to return one,
    traced. *)
Theorem splitExecDML_first_error (dmls : list DML) (exec : list DML -> act (option error))
    (h : trace) :
  let '(res, t) := splitExecDML splitDMLs w e dmls exec h in
  (dones t).*1 ≡ₚ seq 0 (length (splitDMLs dmls (batchSize e))) /\
  (res = None <-> Forall (fun d => d.2 = None) (dones t)) /\
  (forall err,
      res = Some err ->
      exists err' before after,
        err = Traced err' /\
        (dones t).*2 = before ++ Some err' :: after /\
        Forall (fun r => r = None) before).
Proof.
  pose proof (splitExecDML_spec dmls exec h) as H.
  destruct (splitExecDML splitDMLs w e dmls exec h) as [res t].
  destruct H as (-> & Hids & _). split; [done|]. split.
  - rewrite Trace_None, first_failure_None. by rewrite Forall_fmap.
  - intros err Herr.
    destruct (first_failure (dones t).*2) as [err'|] eqn:Hfirst; [|done].
    simpl in Herr. injection Herr as <-.
    apply first_failure_Some in Hfirst as (before & after & Heq & Hbefore).
    by exists err', before, after.
Qed.

(** C7, at the input where the code departs from it: [bulkDelete] has no
    guard for an empty slice.  It calls [begin] and, when that succeeds,
    executes the empty statement and then commits or rolls back; while
    [execTableBatch] and [bulkReplace] return nil on an empty slice without
    any call. *)
Theorem bulkDelete_empty_opens_transaction (h : trace) :
  execTableBatch sql quoteSchema buildColumnList holderString splitDMLs w e [] h = (None, []) /\
  run_act w (bulkReplace quoteSchema buildColumnList holderString e []) h = (None, []) /\
  (let '(res, t) := run_act w (bulkDelete sql e []) h in
   begins t = [db_begin w h] /\
   forall tx, db_begin w h = Ok tx ->
              exists r, execs t = [(tx, ("", []), r)]).
Proof.
  split; [done|]. split; [done|].
  unfold bulkDelete. simpl.
  destruct (queryHistogramVec e); simpl;
    (destruct (db_begin w h) as [id|err]; simpl; [|done]);
    (destruct (db_exec w _ id _ _) as [err|]; simpl;
     [split; [done|]; intros tx' [= <-]; by eexists|]);
    destruct (db_commit w _ id) as [err|]; simpl;
    (split; [done|]); intros tx' [= <-]; by eexists.
Qed.

(** **** The retry loops *)

Lemma execTableBatchRetry_loop_eq (idx : list Z) (err : option error) (dmls : list DML)
    (backoff : Z) (h : trace) :
  execTableBatchRetry_loop sql quoteSchema buildColumnList holderString splitDMLs w e
    idx err dmls backoff h =
  retry_loop
    (execTableBatch sql quoteSchema buildColumnList holderString splitDMLs w e dmls)
    Trace backoff idx err h.
Proof.
  revert err h. induction idx as [|i idx IH]; intros err h; [done|].
  cbn [execTableBatchRetry_loop retry_loop]. unfold M_bind.
  destruct ((if bool_decide (i > 0) then sleep backoff else M_ret ()) h) as [[] t0].
  destruct (execTableBatch _ _ _ _ _ _ _ _ _) as [[err1|] t1]; [|done].
  by rewrite IH.
Qed.

Lemma singleExecRetry_attempts_eq (idx : list Z) (err : option error) (dmls : list DML)
    (safeMode : bool) (backoff : Z) (h : trace) :
  singleExecRetry_attempts sql deleteSQL replaceSQL w e idx err dmls safeMode backoff h =
  retry_loop (M_act w (singleExec sql deleteSQL replaceSQL e dmls safeMode))
    (fun err => err) backoff idx err h.
Proof.
  revert err h. induction idx as [|i idx IH]; intros err h; [done|].
  cbn [singleExecRetry_attempts retry_loop]. unfold M_bind.
  destruct ((if bool_decide (i > 0) then sleep backoff else M_ret ()) h) as [[] t0].
  destruct (M_act w _ _) as [[err1|] t1]; [|done].
  by rewrite IH.
Qed.

Lemma singleExecRetry_groups_run (groups : list (list DML)) (safeMode : bool)
    (retryNum : Z) (backoff : Z) (h : trace) :
  1 <= retryNum ->
  let '(res, t) :=
    singleExecRetry_groups sql deleteSQL replaceSQL w e groups None safeMode retryNum backoff h in
  groups_run (fun g => M_act w (singleExec sql deleteSQL replaceSQL e g safeMode))
    backoff (Z.to_nat retryNum) groups h t res.
Proof.
  intros Hn. revert h. induction groups as [|g gs IH]; intros h.
  { simpl. constructor. }
  cbn [singleExecRetry_groups]. unfold M_bind at 1.
  rewrite singleExecRetry_attempts_eq.
  pose proof (retry_loop_attempts
                (M_act w (singleExec sql deleteSQL replaceSQL e g safeMode))
                (fun err => err) backoff retryNum None h Hn) as Hatt.
  destruct (retry_loop _ _ _ _ _ _) as [r t].
  destruct Hatt as (n & r' & Hle & Hatt & [[-> ->]|(err & -> & -> & ->)]).
  - specialize (IH (h ++ t)).
    destruct (singleExecRetry_groups _ _ _ _ _ _ _ _ _ _) as [res t'].
    eapply groups_next; [exact Hatt|lia|exact IH].
  - unfold M_ret. rewrite app_nil_r. by apply groups_stop.
Qed.

(** C4: for [retryNum >= 1], [execTableBatchRetry] makes [n] attempts of
    [execTableBatch] with [1 <= n <= retryNum]; every attempt but the last
    failed and exactly one sleep of [backoff] precedes every attempt but the
    first (so [n - 1] sleeps in all: two when the third attempt is the first
    to succeed); it returns nil as soon as an attempt succeeds, and when all
    [retryNum] attempts failed it returns the last attempt's error, traced.
    [singleExecRetry] does the same for each group of the split in turn and
    stops at the first group whose attempts all failed. *)
Theorem retry_discipline (dmls allDMLs : list DML) (safeMode : bool) (retryNum backoff : Z)
    (h : trace) :
  1 <= retryNum ->
  (let '(res, t) :=
     execTableBatchRetry sql quoteSchema buildColumnList holderString splitDMLs w e
       dmls retryNum backoff h in
   retried (execTableBatch sql quoteSchema buildColumnList holderString splitDMLs w e dmls)
     backoff retryNum h res t) /\
  (let '(res, t) :=
     singleExecRetry sql deleteSQL replaceSQL splitDMLs w e allDMLs safeMode retryNum backoff h in
   groups_run (fun g => M_act w (singleExec sql deleteSQL replaceSQL e g safeMode))
     backoff (Z.to_nat retryNum) (splitDMLs allDMLs (batchSize e)) h t res).
Proof.
  intros Hn. split.
  - unfold execTableBatchRetry. rewrite execTableBatchRetry_loop_eq.
    pose proof (retry_loop_attempts
                  (execTableBatch sql quoteSchema buildColumnList holderString splitDMLs w e dmls)
                  Trace backoff retryNum None h Hn) as Hatt.
    destruct (retry_loop _ _ _ _ _ _) as [res t].
    destruct Hatt as (n & r & Hle & Hatt & Hres).
    exists n, r. split; [done|]. split; [done|]. split; [|done].
    eapply attempts_sleeps; [|exact Hatt]. intros h'. apply execTableBatch_sleeps.
  - unfold singleExecRetry. by apply singleExecRetry_groups_run.
Qed.

(** C10: for [retryNum <= 0] the loop of [execTableBatchRetry] has no turn:
    it returns nil, and no attempt, no sleep, nothing at all happens. *)
Theorem execTableBatchRetry_nonpositive (dmls : list DML) (retryNum backoff : Z) (h : trace) :
  retryNum <= 0 ->
  execTableBatchRetry sql quoteSchema buildColumnList holderString splitDMLs w e
    dmls retryNum backoff h = (None, []).
Proof.
  intros Hn. unfold execTableBatchRetry. by rewrite seqZ_nil.
Qed.

(** **** Transactions are closed, and nil means committed *)

Lemma begins_app (t1 t2 : trace) : begins (t1 ++ t2) = begins t1 ++ begins t2.
Proof. apply omap_app. Qed.

Lemma begins_ran (id : txid) (done : list stmt) : begins (ran id done) = [].
Proof. by induction done. Qed.

Lemma begins_db_events (t : trace) : begins (db_events t) = begins t.
Proof. induction t as [|[] t IH]; simpl; first [done | by f_equal]. Qed.

Lemma batch_run_closed_once (plan : list stmt) (t : trace) (res : option error) :
  batch_run plan (db_events t) res -> tx_closed_once t.
Proof.
  intros Hrun. unfold tx_closed_once.
  rewrite <- (begins_db_events t), <- (execs_db_events t), <- (commits_db_events t),
    <- (rollbacks_db_events t).
  inversion Hrun as [Hplan Hu Hres|err Hu Hres|id u res' Htx Hu Hres]; simpl; [done|done|].
  apply tx_run_shape in Htx as [(rc & -> & ->)|(done & s & rest & err & r & -> & -> & ->)];
    rewrite begins_app, execs_app, commits_app, rollbacks_app, begins_ran, execs_ran,
      commits_ran, rollbacks_ran; simpl.
  - rewrite app_nil_r. split; [|split; [done|]].
    + apply Forall_fmap, Forall_forall. done.
    + exists (EvBegin (Ok id) :: ran id plan), rc. by left.
  - split; [|split; [done|]].
    + apply Forall_app. split; [apply Forall_fmap, Forall_forall; done|].
      by repeat constructor.
    + exists (EvBegin (Ok id) :: ran id done ++ [EvExec id s.1 s.2 (Some err)]), r.
      right. simpl. f_equal. by rewrite <- (app_assoc (ran id done) [_] [_]).
Qed.

Lemma batch_run_nil_iff_committed (plan : list stmt) (t : trace) (res : option error) :
  batch_run plan (db_events t) res -> nil_iff_committed t res.
Proof.
  intros Hrun. unfold nil_iff_committed.
  setoid_rewrite elem_of_commits. rewrite <- (commits_db_events t).
  inversion Hrun as [Hplan Hu Hres|err Hu Hres|id u res' Htx Hu Hres]; simpl.
  - split; [by left|done].
  - split; [done|]. intros [[=]|[id Hin]]. by apply not_elem_of_nil in Hin.
  - apply tx_run_shape in Htx as [(rc & -> & ->)|(done & s & rest & err & r & -> & -> & ->)];
      rewrite commits_app, commits_ran; simpl.
    + split.
      * intros Hnone. apply Trace_None, Trace_None in Hnone as ->.
        right. exists id. by apply list_elem_of_singleton.
      * intros [[=]|[id' Hin]]. apply list_elem_of_singleton in Hin.
        by injection Hin as -> <-.
    + split; [done|]. intros [[=]|[id' Hin]]. by apply not_elem_of_nil in Hin.
Qed.

(** X5: [bulkDelete], [bulkReplace] and [singleExec] never leave a
    transaction open: when [begin] succeeded, every statement ran on that
    transaction, and exactly one commit or rollback of it is made, as the
    last call to the database; when [begin] failed, no statement, commit or
    rollback is attempted. *)
Theorem batch_closes_its_transaction (deletes inserts dmls : list DML) (safeMode : bool)
    (h : trace) :
  tx_closed_once (run_act w (bulkDelete sql e deletes) h).2 /\
  tx_closed_once
    (run_act w (bulkReplace quoteSchema buildColumnList holderString e inserts) h).2 /\
  tx_closed_once (run_act w (singleExec sql deleteSQL replaceSQL e dmls safeMode) h).2.
Proof.
  split; [|split].
  - pose proof (bulkDelete_run deletes h) as H.
    destruct (run_act w _ _) as [res t]. destruct H as [H _].
    by eapply batch_run_closed_once.
  - pose proof (bulkReplace_run inserts h) as H.
    destruct (run_act w _ _) as [res t]. destruct H as [H _].
    by eapply batch_run_closed_once.
  - pose proof (singleExec_run dmls safeMode h) as H.
    destruct (run_act w _ _) as [res t]. destruct H as [H _].
    by eapply batch_run_closed_once.
Qed.

(** X6: [bulkDelete], [bulkReplace] and [singleExec] return nil exactly when
    the commit of their transaction succeeded (or, for [bulkReplace] on no
    record, when nothing was done): a failed [begin], a failed statement and
    a failed commit all come back as errors. *)
Theorem batch_nil_iff_committed (deletes inserts dmls : list DML) (safeMode : bool)
    (h : trace) :
  (let '(res, t) := run_act w (bulkDelete sql e deletes) h in nil_iff_committed t res) /\
  (let '(res, t) :=
     run_act w (bulkReplace quoteSchema buildColumnList holderString e inserts) h in
   nil_iff_committed t res) /\
  (let '(res, t) := run_act w (singleExec sql deleteSQL replaceSQL e dmls safeMode) h in
   nil_iff_committed t res).
Proof.
  split; [|split].
  - pose proof (bulkDelete_run deletes h) as H.
    destruct (run_act w _ _) as [res t]. destruct H as [H _].
    by eapply batch_run_nil_iff_committed.
  - pose proof (bulkReplace_run inserts h) as H.
    destruct (run_act w _ _) as [res t]. destruct H as [H _].
    by eapply batch_run_nil_iff_committed.
  - pose proof (singleExec_run dmls safeMode h) as H.
    destruct (run_act w _ _) as [res t]. destruct H as [H _].
    by eapply batch_run_nil_iff_committed.
Qed.

(** **** The statements of the bulk functions *)

Lemma append_assoc (s1 s2 s3 : string) : (s1 +:+ s2) +:+ s3 = s1 +:+ s2 +:+ s3.
Proof.
  induction s1 as [|c s1 IH]; [done|].
  change (String c ((s1 +:+ s2) +:+ s3) = String c (s1 +:+ s2 +:+ s3)). by f_equal.
Qed.

Lemma bulkDelete_sqls_foldr (deletes : list DML) :
  bulkDelete_sqls sql deletes =
  foldr (fun dml rest => (sql dml).1 +:+ ";" +:+ rest) "" deletes.
Proof.
  unfold bulkDelete_sqls.
  assert (Hgen : forall acc,
             fold_left (fun sqls dml => sqls +:+ (sql dml).1 +:+ ";") deletes acc =
             acc +:+ foldr (fun dml rest => (sql dml).1 +:+ ";" +:+ rest) "" deletes).
  { induction deletes as [|d deletes IH]; intros acc; simpl.
    - induction acc as [|c acc IHacc]; [done|].
      change (String c acc = String c (acc +:+ "")). by f_equal.
    - rewrite IH. by rewrite !append_assoc. }
  by rewrite Hgen.
Qed.

Lemma bulkDelete_argss_concat (deletes : list DML) :
  bulkDelete_argss sql deletes = concat ((fun dml => (sql dml).2) <$> deletes).
Proof.
  unfold bulkDelete_argss.
  assert (Hgen : forall acc,
             fold_left (fun argss dml => argss ++ (sql dml).2) deletes acc =
             acc ++ concat ((fun dml => (sql dml).2) <$> deletes)).
  { induction deletes as [|d deletes IH]; intros acc; simpl.
    - by rewrite app_nil_r.
    - rewrite IH. by rewrite <- app_assoc. }
  by rewrite Hgen.
Qed.

(** X3: the statement [bulkDelete] sends is the [sql()] text of each record
    followed by ";", in the order of the records, and its arguments are the
    records' arguments in that same order; nothing else is ever executed. *)
Theorem bulkDelete_statement (deletes : list DML) (h : trace) :
  Forall (fun x => x.1.2 =
            (foldr (fun dml rest => (sql dml).1 +:+ ";" +:+ rest) "" deletes,
             concat ((fun dml => (sql dml).2) <$> deletes)))
    (execs (run_act w (bulkDelete sql e deletes) h).2).
Proof.
  pose proof (calls_in_run _ _ h (bulkDelete_calls deletes)) as Hcalls.
  eapply Forall_impl; [exact Hcalls|]. intros [[id s] r] Hs. simpl in *.
  unfold Loader.bulkDelete_plan in Hs. apply list_elem_of_singleton in Hs as ->.
  by rewrite bulkDelete_sqls_foldr, bulkDelete_argss_concat.
Qed.

Lemma bulkReplace_args_length (first : DML) (inserts : list DML) :
  length (bulkReplace_args first inserts) =
  (length inserts * length (columns (info first)))%nat.
Proof.
  unfold bulkReplace_args. induction inserts as [|d inserts IH]; simpl; [done|].
  rewrite length_app, IH, length_map. done.
Qed.

(** X2: [bulkReplace] sends at most one statement, and its arguments are as
    many as the records times the columns of the first record's table: one
    argument per record and column, whatever columns the other records
    carry. *)
Theorem bulkReplace_argument_count (inserts : list DML) (h : trace) :
  let t := (run_act w (bulkReplace quoteSchema buildColumnList holderString e inserts) h).2 in
  (length (execs t) <= 1)%nat /\
  match inserts with
  | [] => t = []
  | first :: _ =>
      Forall (fun x => length x.1.2.2 =
                (length inserts * length (columns (info first)))%nat) (execs t)
  end.
Proof.
  cbv zeta. split.
  - pose proof (bulkReplace_run inserts h) as H.
    destruct (run_act w _ _) as [res t]. destruct H as [H _]. simpl.
    rewrite <- (execs_db_events t).
    inversion H as [Hplan Hu Hres|err Hu Hres|id u res' Htx Hu Hres]; simpl; [lia|lia|].
    apply tx_run_shape in Htx as [(rc & -> & ->)|(done & s & rest & err & r & Hplan & -> & ->)].
    + rewrite execs_app, execs_ran, length_app, length_fmap. simpl.
      destruct inserts; simpl; lia.
    + rewrite execs_app, execs_ran, length_app, length_fmap. simpl.
      destruct inserts as [|first inserts]; simpl in Hplan.
      * by destruct done.
      * destruct done as [|s' [|s'' done]]; simpl in *; [lia|done|done].
  - destruct inserts as [|first rest] eqn:Hins; [done|]. rewrite <- Hins.
    pose proof (calls_in_run _ _ h (bulkReplace_calls inserts)) as Hcalls.
    eapply Forall_impl; [exact Hcalls|]. intros [[id s] r] Hs. simpl in *.
    subst inserts. unfold Loader.bulkReplace_plan in Hs.
    apply list_elem_of_singleton in Hs as ->. simpl.
    apply (bulkReplace_args_length first (first :: rest)).
Qed.

(** **** One transaction per sub-batch *)

Lemma begins_left_bind {A B : Type} (n : nat) (m : act A) (f : A -> act B) :
  begins_left n m -> (forall x, begins_left 0 (f x)) -> begins_left n (act_bind m f).
Proof.
  intros Hm Hf. revert n Hm.
  induction m as [a|k IH|tx q args k IH|tx k IH|tx k IH|l fmt ops k IH|name k IH];
    intros n Hm; simpl in *; auto.
  - by subst n.
  - destruct Hm as (m & -> & Hk). exists m. split; [done|]. auto.
Qed.

Lemma begins_left_step {A : Type} (n : nat) (a a' : act A) (h : trace) (ev : event) :
  begins_left n a -> step_act w a h = inl (ev, a') ->
  exists n', begins_left n' a' /\ n = (length (begins [ev]) + n')%nat.
Proof.
  destruct a; simpl; intros Hn [= <- <-]; simpl; try (by exists n; auto).
  destruct Hn as (m & -> & Hk). exists m. auto.
Qed.

Lemma begins_left_run {A : Type} (n : nat) (a : act A) (h : trace) :
  begins_left n a -> length (begins (run_act w a h).2) = n.
Proof.
  revert n h. induction a; intros n h; simpl; intros Hn; auto.
  destruct Hn as (m & -> & Hk). simpl. f_equal. auto.
Qed.

Lemma sum_list_insert (l : list nat) (i n m : nat) :
  l !! i = Some n -> (sum_list (<[i := m]> l) + n = sum_list l + m)%nat.
Proof.
  revert i. induction l as [|x l IH]; intros [|i] Hl; simplify_eq/=; [lia|].
  specialize (IH i Hl). lia.
Qed.

Lemma sum_list_delete (l : list nat) (i n : nat) :
  l !! i = Some n -> (sum_list (delete i l) + n = sum_list l)%nat.
Proof.
  revert i. induction l as [|x l IH]; intros [|i] Hl; simplify_eq/=; [lia|].
  specialize (IH i Hl). lia.
Qed.

Lemma begins_left_drain (ns : list nat) (ths : list (nat * act (option error)))
    (slot : option error) (h : trace) :
  Forall2 (fun n th => begins_left n th.2) ns ths ->
  length (begins (drain w ths slot h).2) = sum_list ns.
Proof.
  intros Hths. revert slot h.
  induction Hths as [|n [id a] ns ths Ha Hths IH]; intros slot h; simpl; [done|].
  pose proof (begins_left_run n a h Ha) as Hrun.
  destruct (run_act w a h) as [r t]. simpl in Hrun.
  specialize (IH (first_error slot r) (h ++ t ++ [EvDone id r])).
  destruct (drain w ths _ _) as [res t']. simpl in *.
  rewrite begins_app, length_app. simpl. lia.
Qed.

Lemma begins_left_group (picks : list nat) (ns : list nat)
    (ths : list (nat * act (option error))) (slot : option error) (h : trace) :
  Forall2 (fun n th => begins_left n th.2) ns ths ->
  length (begins (run_group w picks ths slot h).2) = sum_list ns.
Proof.
  revert ns ths slot h.
  induction picks as [|p picks IH]; intros ns ths slot h Hths; simpl.
  { by apply begins_left_drain. }
  destruct (ths !! (p mod length ths)%nat) as [[id a]|] eqn:Hlook.
  - destruct (Forall2_lookup_r _ _ _ _ _ Hths Hlook) as (n & Hn & Ha). simpl in Ha.
    destruct (step_act w a h) as [[ev a']|r] eqn:Hstep.
    + destruct (begins_left_step n a a' h ev Ha Hstep) as (n' & Ha' & ->).
      unfold emit. cbn [fst snd]. change (ev :: ?t) with ([ev] ++ t).
      rewrite begins_app, length_app.
      rewrite (IH (<[(p mod length ths)%nat := n']> ns)).
      * pose proof (sum_list_insert ns _ _ n' Hn). lia.
      * by apply Forall2_insert.
    + unfold emit. cbn [fst snd]. change (EvDone id r :: ?t) with ([EvDone id r] ++ t).
      rewrite begins_app, length_app. simpl.
      rewrite (IH (delete (p mod length ths)%nat ns)).
      * destruct a; simpl in Hstep; try done. simpl in Ha. subst n.
        pose proof (sum_list_delete ns _ _ Hn). lia.
      * by apply Forall2_delete.
  - apply lookup_ge_None in Hlook.
    destruct ths as [|th ths].
    + by inversion Hths.
    + exfalso. pose proof (Nat.mod_upper_bound p (length (th :: ths))) as Hlt.
      simpl in *. lia.
Qed.

Lemma bulkDelete_begins_once (deletes : list DML) :
  begins_left 1 (bulkDelete sql e deletes).
Proof.
  unfold bulkDelete. simpl. exists 0%nat. split; [done|].
  destruct (queryHistogramVec e); intros [id|err]; simpl; try done;
    intros [err|]; simpl; try done; by intros [err|].
Qed.

Lemma bulkReplace_begins (inserts : list DML) :
  begins_left (if decide (inserts = []) then 0 else 1)%nat
    (bulkReplace quoteSchema buildColumnList holderString e inserts).
Proof.
  destruct inserts as [|first rest]; [done|]. simpl. exists 0%nat. split; [done|].
  destruct (queryHistogramVec e); intros [id|err]; simpl; try done;
    intros [err|]; simpl; try done; by intros [err|].
Qed.

Lemma begins_of_group (exec : list DML -> act (option error)) (count : list DML -> nat)
    (dmls : list DML) (h : trace) :
  (forall split, begins_left (count split) (exec split)) ->
  length (begins (splitExecDML splitDMLs w e dmls exec h).2) =
  sum_list (count <$> splitDMLs dmls (batchSize e)).
Proof.
  intros Hexec. unfold splitExecDML.
  pose proof (begins_left_group (schedule w h)
    (count <$> splitDMLs dmls (batchSize e))
    (imap (fun i split => (i, (do err <- exec split; Ret (Trace err))%act))
          (splitDMLs dmls (batchSize e))) None h) as H.
  destruct (run_group w _ _ _ _) as [res t]. cbn [fst snd] in *.
  apply H. apply Forall2_same_length_lookup. split.
  { by rewrite length_fmap, length_imap. }
  intros i n [j a] Hn Hth.
  rewrite list_lookup_fmap in Hn. rewrite list_lookup_imap in Hth.
  destruct (splitDMLs dmls (batchSize e) !! i) as [split|]; [|done].
  injection Hth as <- <-. injection Hn as <-.
  change (begins_left (count split) (do err <- exec split; Ret (Trace err))%act).
  by apply begins_left_bind.
Qed.

(** X7: whatever the interleaving of the goroutines and whatever the
    database answers, [splitExecDML] calls [begin] exactly once for each
    sub-batch of the split with [bulkDelete], and exactly once for each
    sub-batch that is not empty with [bulkReplace]. *)
Theorem splitExecDML_one_transaction_per_batch (dmls : list DML) (h : trace) :
  length (begins (splitExecDML splitDMLs w e dmls (bulkDelete sql e) h).2) =
    length (splitDMLs dmls (batchSize e)) /\
  length (begins (splitExecDML splitDMLs w e dmls
                    (bulkReplace quoteSchema buildColumnList holderString e) h).2) =
    length (filter (fun split => split <> []) (splitDMLs dmls (batchSize e))).
Proof.
  split.
  - rewrite (begins_of_group _ (fun _ => 1%nat)); [|intros; apply bulkDelete_begins_once].
    induction (splitDMLs dmls (batchSize e)) as [|split splits IH]; [done|].
    rewrite fmap_cons. simpl. by f_equal.
  - rewrite (begins_of_group _ (fun split => if decide (split = []) then 0 else 1)%nat);
      [|intros; apply bulkReplace_begins].
    induction (splitDMLs dmls (batchSize e)) as [|split splits IH]; [done|].
    rewrite fmap_cons, filter_cons. cbn [sum_list sum_list_with]. rewrite IH.
    destruct (decide (split = [])) as [->|Hne].
    + by rewrite decide_False by (by intros []).
    + by rewrite decide_True by done.
Qed.

(** **** Edges of the retry loops and of the grouping *)

(** X4: for [retryNum <= 0], [singleExecRetry] returns nil without a single
    attempt: no transaction, no statement, no sleep, whatever the records. *)
Theorem singleExecRetry_nonpositive (allDMLs : list DML) (safeMode : bool)
    (retryNum backoff : Z) (h : trace) :
  retryNum <= 0 ->
  singleExecRetry sql deleteSQL replaceSQL splitDMLs w e allDMLs safeMode retryNum backoff h
  = (None, []).
Proof.
  intros Hn. unfold singleExecRetry.
  generalize (splitDMLs allDMLs (batchSize e)). intros groups. revert h.
  induction groups as [|g gs IH]; intros h; [done|].
  cbn [singleExecRetry_groups]. unfold M_bind. rewrite seqZ_nil by done. simpl.
  by rewrite IH.
Qed.

(** X8: an error of [mergeByPrimaryKey] is retried like any other:
    [execTableBatchRetry] sleeps [retryNum - 1] times, makes no call to the
    database, and returns that error traced by [execTableBatch] and by
    itself. *)
Theorem merge_error_is_retried (dmls : list DML) (err : error) (retryNum backoff : Z)
    (h : trace) :
  dmls <> [] ->
  mergeByPrimaryKey dmls = Err err ->
  1 <= retryNum ->
  execTableBatchRetry sql quoteSchema buildColumnList holderString splitDMLs w e
    dmls retryNum backoff h =
  (Some (Traced (Traced err)), replicate (Z.to_nat retryNum - 1) (EvSleep backoff)).
Proof.
  intros Hne Hmerge Hn. unfold execTableBatchRetry.
  assert (Hbody : forall h',
             execTableBatch sql quoteSchema buildColumnList holderString splitDMLs w e dmls h'
             = (Some (Traced err), [])).
  { intros h'. rewrite execTableBatch_unfold. destruct dmls; [done|]. by rewrite Hmerge. }
  assert (Hloop : forall k i err0 h',
             1 <= i ->
             execTableBatchRetry_loop sql quoteSchema buildColumnList holderString
               splitDMLs w e (seqZ i (Z.of_nat k)) (Some err0) dmls backoff h' =
             (Some (Traced (if decide (k = 0%nat) then err0 else Traced err)),
              replicate k (EvSleep backoff))).
  { induction k as [|k IH]; intros i err0 h' Hi; [done|].
    rewrite seqZ_cons by lia. cbn [execTableBatchRetry_loop].
    rewrite bool_decide_eq_true_2 by lia.
    unfold M_bind, sleep. rewrite Hbody.
    replace (Z.pred (Z.of_nat (S k))) with (Z.of_nat k) by lia.
    rewrite IH by lia. simpl. by destruct k. }
  rewrite seqZ_cons by lia. cbn [execTableBatchRetry_loop].
  rewrite bool_decide_eq_false_2 by lia.
  unfold M_bind, M_ret. rewrite Hbody.
  replace (Z.pred retryNum) with (Z.of_nat (Z.to_nat retryNum - 1)) by lia.
  rewrite Hloop by lia. simpl. by destruct (Z.to_nat retryNum - 1)%nat.
Qed.

(** X1: [groupByTable] gives nil for no record; otherwise the group of a
    table is exactly the records of that table in the order they came, a
    table with no record has no group, and so every record is in the group
    of its own table. *)
Theorem groupByTable_partition (dmls : list DML) :
  let table_of dml := quoteSchema (Database dml) (Table dml) in
  match groupByTable quoteSchema dmls with
  | None => dmls = []
  | Some tables =>
      dmls <> [] /\
      (forall table,
          tables !! table =
          match filter (fun dml => table_of dml = table) dmls with
          | [] => None
          | group => Some group
          end) /\
      (forall dml, dml ∈ dmls ->
                   exists group, tables !! table_of dml = Some group /\ dml ∈ group)
  end.
Proof.
  cbv zeta. unfold groupByTable.
  assert (Hgen : forall (l : list DML) (tables : gmap string (list DML)) table,
             let step := fun (tables : gmap string (list DML)) dml =>
               <[quoteSchema (Database dml) (Table dml) :=
                   default [] (tables !! quoteSchema (Database dml) (Table dml)) ++ [dml]]>
                 tables in
             (forall t g, tables !! t = Some g -> g <> []) ->
             fold_left step l tables !! table =
             match default [] (tables !! table) ++
                   filter (fun dml => quoteSchema (Database dml) (Table dml) = table) l with
             | [] => None
             | group => Some group
             end).
  { induction l as [|d l IH]; intros tables table step Hne; simpl.
    - rewrite app_nil_r. destruct (tables !! table) as [g|] eqn:Hg; simpl; [|done].
      specialize (Hne _ _ Hg). by destruct g.
    - fold step. rewrite IH.
      + unfold step. rewrite filter_cons.
        destruct (decide (quoteSchema (Database d) (Table d) = table)) as [->|Hd].
        * rewrite lookup_insert_eq. simpl. by rewrite <- app_assoc.
        * by rewrite lookup_insert_ne.
      + intros t g. unfold step.
        destruct (decide (quoteSchema (Database d) (Table d) = t)) as [->|Hd].
        * rewrite lookup_insert_eq. intros [= <-]. by destruct (default [] _).
        * rewrite lookup_insert_ne by done. apply Hne. }
  destruct dmls as [|d dmls]; [done|].
  assert (Hall : forall table,
             fold_left
               (fun (tables : gmap string (list DML)) dml =>
                  <[quoteSchema (Database dml) (Table dml) :=
                      default [] (tables !! quoteSchema (Database dml) (Table dml)) ++ [dml]]>
                    tables) (d :: dmls) ∅ !! table =
             match filter (fun dml => quoteSchema (Database dml) (Table dml) = table)
                     (d :: dmls) with
             | [] => None
             | group => Some group
             end).
  { intros table. rewrite (Hgen (d :: dmls) ∅ table); [by rewrite lookup_empty|].
    intros t g. by rewrite lookup_empty. }
  split; [done|]. split; [exact Hall|].
  intros dml Hin. rewrite Hall.
  assert (Hmem : dml ∈ filter (fun d' => quoteSchema (Database d') (Table d') =
                                         quoteSchema (Database dml) (Table dml)) (d :: dmls)).
  { by apply list_elem_of_filter. }
  destruct (filter _ (d :: dmls)) as [|x group] eqn:Hf.
  - by apply not_elem_of_nil in Hmem.
  - by eexists.
Qed.

End ExecutorFacts.

(** *** Facts about the merge *)

Lemma effectiveKind_delete (old : option DML) (d : DML) :
  effectiveKind old d = DeleteDMLType <-> Tp d = DeleteDMLType.
Proof.
  unfold effectiveKind. destruct (Tp d) eqn:Hd; [| |done];
    destruct old as [o|]; try destruct (Tp o); done.
Qed.

Lemma mergeKeys_succeeds (dmls : list DML) (m0 : gmap key DML) :
  Forall (fun d => is_Some (keyOf d)) dmls -> exists m, mergeKeys dmls m0 = Ok m.
Proof.
  revert m0. induction dmls as [|d rest IH]; intros m0 Hkeys; simpl.
  { by exists m0. }
  apply Forall_cons in Hkeys as [[k Hk] Hrest]. rewrite Hk. by apply IH.
Qed.

Lemma mergeKeys_lookup (dmls : list DML) (m0 m : gmap key DML) (k : key) :
  mergeKeys dmls m0 = Ok m ->
  match last_change k dmls with
  | Some d =>
      exists tp, m !! k = Some (withTp d tp) /\
                 (tp = DeleteDMLType <-> Tp d = DeleteDMLType)
  | None => m !! k = m0 !! k
  end.
Proof.
  revert m0. induction dmls as [|d rest IH]; intros m0; simpl.
  { by intros [= ->]. }
  destruct (keyOf d) as [kd|] eqn:Hkd; [|done].
  intros Hrest. specialize (IH _ Hrest).
  destruct (last_change k rest) as [d'|]; [done|].
  rewrite IH. destruct (decide (Some kd = Some k)) as [[= ->]|Hne].
  - rewrite lookup_insert_eq. eexists. split; [done|]. apply effectiveKind_delete.
  - rewrite lookup_insert_ne; [done|]. congruence.
Qed.

Lemma kind_partition (l : list (key * DML)) :
  filter (fun kr => Tp kr.2 = DeleteDMLType) l ++
  filter (fun kr => Tp kr.2 = InsertDMLType) l ++
  filter (fun kr => Tp kr.2 = UpdateDMLType) l ≡ₚ l.
Proof.
  induction l as [|[k r] l IH]; [done|].
  rewrite !filter_cons. simpl. destruct (Tp r) eqn:Hr;
    repeat (case_decide; try done); simpl.
  - rewrite <- IH at 4. by rewrite <- Permutation_middle.
  - rewrite <- IH at 4. rewrite app_assoc, <- Permutation_middle. by rewrite <- app_assoc.
  - by rewrite IH.
Qed.

Lemma bucketsOf_lookup (l : list DML) (tp : DMLType) :
  default [] (bucketsOf l !! tp) = filter (fun r => Tp r = tp) l /\
  (bucketsOf l !! tp = None <-> filter (fun r => Tp r = tp) l = []).
Proof.
  unfold bucketsOf.
  assert (Hgen : forall (types : gmap DMLType (list DML)),
             default [] (fold_left addToBucket l types !! tp) =
               default [] (types !! tp) ++ filter (fun r => Tp r = tp) l /\
             (fold_left addToBucket l types !! tp = None <->
              types !! tp = None /\ filter (fun r => Tp r = tp) l = [])).
  { induction l as [|r l IH]; intros types; simpl.
    { rewrite app_nil_r. split; [done|]. split; [by intros ->|by intros [-> _]]. }
    destruct (IH (addToBucket types r)) as [IH1 IH2]. rewrite IH1, IH2.
    unfold addToBucket. rewrite filter_cons.
    destruct (decide (Tp r = tp)) as [->|Hne].
    - rewrite lookup_insert_eq. simpl. rewrite <- app_assoc. simpl.
      split; [done|]. split; [by intros [[=] _]|by intros [_ [=]]].
    - rewrite lookup_insert_ne by done. done. }
  destruct (Hgen ∅) as [H1 H2]. rewrite lookup_empty in H1, H2. simpl in H1.
  split; [done|]. rewrite H2. split; [by intros [_ ->]|done].
Qed.

Lemma filter_entries_records (m : gmap key DML) (tp : DMLType) :
  filter (fun r => Tp r = tp) (map_to_list m).*2 = (entries m tp).*2.
Proof.
  unfold entries. induction (map_to_list m) as [|[k r] l IH]; [done|].
  rewrite fmap_cons, !filter_cons. simpl. case_decide; simpl; by rewrite IH.
Qed.

(** C1: when every change has a key, [mergeByPrimaryKey] succeeds, and there
    is a table [m] of effective records by key such that the bucket of each
    kind holds the records of that kind; no key occurs twice in the three
    buckets together (one record per key, and buckets that share no key); a
    key has a record exactly when some change bears on it; and the record of
    a key is its last change with the effective kind, which is Delete when
    that last change is a delete and Insert or Update otherwise. *)
Theorem mergeByPrimaryKey_one_record_per_key (dmls : list DML) :
  Forall (fun d => is_Some (keyOf d)) dmls ->
  exists (m : gmap key DML) (types : gmap DMLType (list DML)),
    mergeByPrimaryKey dmls = Ok types /\
    (forall tp, default [] (types !! tp) = (entries m tp).*2 /\
                (types !! tp = None <-> entries m tp = [])) /\
    NoDup ((entries m DeleteDMLType).*1 ++ (entries m InsertDMLType).*1 ++
           (entries m UpdateDMLType).*1) /\
    (forall k r tp, (k, r) ∈ entries m tp ->
       exists d, last_change k dmls = Some d /\ r = withTp d tp /\
                 (Tp d = DeleteDMLType -> tp = DeleteDMLType) /\
                 (Tp d <> DeleteDMLType -> tp = InsertDMLType \/ tp = UpdateDMLType)) /\
    (forall k d, last_change k dmls = Some d ->
       exists r, (k, r) ∈ entries m (Tp r)).
Proof.
  intros Hkeys. destruct (mergeKeys_succeeds dmls ∅ Hkeys) as [m Hm].
  exists m, (bucketsOf (map_to_list m).*2).
  split; [unfold mergeByPrimaryKey; by rewrite Hm|]. split; [|split; [|split]].
  - intros tp. destruct (bucketsOf_lookup (map_to_list m).*2 tp) as [H1 H2].
    rewrite H1, H2, filter_entries_records. split; [done|].
    split; [apply fmap_nil_inv|by intros ->].
  - rewrite <- !fmap_app. unfold entries. rewrite kind_partition.
    apply NoDup_fst_map_to_list.
  - intros k r tp [Htp Hin]%list_elem_of_filter. simpl in Htp.
    apply elem_of_map_to_list in Hin.
    pose proof (mergeKeys_lookup dmls ∅ m k Hm) as Hlook.
    destruct (last_change k dmls) as [d|].
    + destruct Hlook as (tp' & Hr & Hdel). rewrite Hin in Hr. injection Hr as ->.
      simpl in Htp. subst tp'. exists d. split; [done|]. split; [done|].
      split; [by intros Hd%Hdel|]. intros Hnd.
      destruct tp; [by left|by right|]. by destruct Hnd as []; apply Hdel.
    + rewrite lookup_empty in Hlook. congruence.
  - intros k d Hlast.
    pose proof (mergeKeys_lookup dmls ∅ m k Hm) as Hlook. rewrite Hlast in Hlook.
    destruct Hlook as (tp & Hr & _). exists (withTp d tp).
    apply list_elem_of_filter. split; [done|]. by apply elem_of_map_to_list.
Qed.

End LoaderFacts.

(** ** Facts about package [restore] *)

Module RestoreFacts.
Import Errors Restore.

Section StartFacts.

(** The collaborators of [Start], none of which is among the sources. *)
Variable readBinlogNames : string -> result (list string).
Variable searchFileIndex : list string -> string -> Z.
Variable Join : string -> string -> string.
Variable OpenFile : string -> result reader.
Variable Translate : payload -> result translation.
Variable IgnoreDDLError : error -> bool.
(** [executor.Execute], whose answer may depend on all that happened. *)
Variable Execute : trace -> list string -> list (list value) -> bool -> option error.

(** [r.cfg.Dir]. *)
Variable dir : string.

Local Abbreviation read_loop := (Restore.read_loop Translate IgnoreDDLError Execute).
Local Abbreviation files_loop :=
  (Restore.files_loop Join OpenFile Translate IgnoreDDLError Execute dir).
Local Abbreviation Start :=
  (Restore.Start readBinlogNames searchFileIndex Join OpenFile Translate IgnoreDDLError
     Execute dir).
Local Abbreviation execute_errors_handled := (Restore.execute_errors_handled IgnoreDDLError).

Lemma closes_handled (out : outcome) (opened : list string) :
  execute_errors_handled out (closes opened) /\
  Forall (fun ev => exists p, ev = EvClose p) (closes opened).
Proof.
  induction opened as [|p opened [IH1 IH2]]; simpl; [by split|].
  split; [done|]. constructor; [by exists p|done].
Qed.

Lemma read_loop_starts_reading (rd : reader) (h : trace) :
  exists next t, (read_loop rd h).2 = EvRead next :: t.
Proof.
  destruct rd as [|[p|err] rest]; simpl.
  - by eexists _, _.
  - destruct (Translate p) as [[[sqls args] isDDL]|err]; [|by eexists _, _].
    destruct (Execute _ sqls args isDDL) as [err|].
    + destruct (IgnoreDDLError err); [|by eexists _, _].
      destruct (read_loop rest _). by eexists _, _.
    + destruct (read_loop rest _). by eexists _, _.
  - destruct (decide (err = EOF)); by eexists _, _.
Qed.

Lemma read_loop_handled (rd : reader) (h : trace) (out : outcome) (tail : trace) :
  let '(res, t) := read_loop rd h in
  match res with
  | Some err => out = Returned err /\ Forall (fun ev => exists p, ev = EvClose p) tail
  | None => execute_errors_handled out tail
  end ->
  execute_errors_handled out (t ++ tail).
Proof.
  revert h. induction rd as [|[p|err] rest IH]; intros h; simpl.
  - done.
  - destruct (Translate p) as [[[sqls args] isDDL]|err]; simpl.
    + destruct (Execute _ sqls args isDDL) as [err|] eqn:Hexec.
      * destruct (IgnoreDDLError err) eqn:Hign.
        -- specialize (IH (h ++ [EvRead (Ok p); EvExecute sqls args isDDL (Some err);
                                   EvLog LWarn "[ignore ddl error][sql]%s[args]%v[error]%v"
                                     [LSqls sqls; LArgs args; LErr err]])).
           pose proof (read_loop_starts_reading rest
                         (h ++ [EvRead (Ok p); EvExecute sqls args isDDL (Some err);
                                EvLog LWarn "[ignore ddl error][sql]%s[args]%v[error]%v"
                                  [LSqls sqls; LArgs args; LErr err]])) as (next & t' & Ht').
           destruct (read_loop rest _) as [res t]. simpl in Ht'. subst t.
           intros Hres. simpl. rewrite Hign. split; [by eexists _, _|].
           by apply IH.
        -- simpl. rewrite Hign. by intros [-> Htail].
      * specialize (IH (h ++ [EvRead (Ok p); EvExecute sqls args isDDL None])).
        destruct (read_loop rest _) as [res t]. simpl. done.
    + intros [-> Htail]. clear IH. induction Htail as [|ev tail [q ->] _ IHt]; simpl; done.
  - destruct (decide (err = EOF)); simpl; [done|].
    intros [-> Htail]. clear IH. induction Htail as [|ev tail [q ->] _ IHt]; simpl; done.
Qed.

Lemma files_loop_handled (names : list string) (opened : list string) (h : trace) :
  let '(out, t) := files_loop names opened h in execute_errors_handled out t.
Proof.
  revert opened h. induction names as [|name names IH]; intros opened h; simpl.
  { apply closes_handled. }
  destruct (OpenFile (Join dir name)) as [rd|err]; simpl.
  - pose proof (read_loop_handled rd (h ++ [EvOpen (Join dir name) true])) as Hread.
    destruct (read_loop rd _) as [[err|] t].
    + simpl. apply Hread. split; [done|]. apply (closes_handled (Returned err) (_ :: _)).
    + specialize (IH (Join dir name :: opened) (h ++ EvOpen (Join dir name) true :: t)).
      destruct (files_loop names _ _) as [out t']. simpl. by apply Hread.
  - apply closes_handled.
Qed.

(** C9: in every run of [Start], an error of [executor.Execute] that
    [IgnoreDDLError] accepts is logged as a warning and the loop goes on to
    read the next binlog; any other error of [Execute] ends [Start], which
    returns it traced. *)
Theorem Start_execute_errors (h : trace) :
  let '(out, t) := Start h in execute_errors_handled out t.
Proof.
  unfold Start. destruct (readBinlogNames dir) as [names|err]; [|done].
  case_bool_decide; [|done].
  pose proof (files_loop_handled (drop (Z.to_nat (searchFileIndex names "")) names) []
                (h ++ [EvLog LDebug "index %d" [LInt (searchFileIndex names "")]])) as Hfiles.
  by destruct (files_loop _ _ _) as [out t].
Qed.

(** **** What [Start] reads, executes, opens and closes *)

Local Arguments closes : simpl never.

Lemma payloads_app (t1 t2 : trace) : payloads (t1 ++ t2) = payloads t1 ++ payloads t2.
Proof. apply omap_app. Qed.

Lemma executions_app (t1 t2 : trace) :
  executions (t1 ++ t2) = executions t1 ++ executions t2.
Proof. apply omap_app. Qed.

Lemma opens_app (t1 t2 : trace) : opens (t1 ++ t2) = opens t1 ++ opens t2.
Proof. apply omap_app. Qed.

Lemma opened_app (t1 t2 : trace) : opened (t1 ++ t2) = opened t1 ++ opened t2.
Proof. apply omap_app. Qed.

Lemma closed_app (t1 t2 : trace) : closed (t1 ++ t2) = closed t1 ++ closed t2.
Proof. apply omap_app. Qed.

Lemma closes_reads_nothing (ps : list string) :
  payloads (closes ps) = [] /\ executions (closes ps) = [] /\ opens (closes ps) = [] /\
  opened (closes ps) = [] /\ closed (closes ps) = ps.
Proof.
  induction ps as [|p ps (IH1 & IH2 & IH3 & IH4 & IH5)]; simpl; [done|].
  repeat split; try done. by f_equal.
Qed.

(** The inner loop neither opens nor closes a file. *)
Lemma read_loop_opens_nothing (rd : reader) (h : trace) :
  opens (read_loop rd h).2 = [] /\ opened (read_loop rd h).2 = [] /\
  closed (read_loop rd h).2 = [].
Proof.
  revert h. induction rd as [|[p|err] rest IH]; intros h; simpl; [done| |].
  - destruct (Translate p) as [[[sqls args] isDDL]|err]; [|done].
    destruct (Execute _ sqls args isDDL) as [err|].
    + destruct (IgnoreDDLError err); [|done].
      specialize (IH (h ++ [EvRead (Ok p); EvExecute sqls args isDDL (Some err);
                             EvLog LWarn "[ignore ddl error][sql]%s[args]%v[error]%v"
                               [LSqls sqls; LArgs args; LErr err]])).
      by destruct (read_loop rest _).
    + specialize (IH (h ++ [EvRead (Ok p); EvExecute sqls args isDDL None])).
      by destruct (read_loop rest _).
  - by destruct (decide (err = EOF)).
Qed.

(** What one file contributes: its executions are the translations of its
    payloads, but for a last payload whose translation failed, and then the
    loop returns that error traced. *)
Lemma read_loop_translations (rd : reader) (h : trace) :
  let '(res, t) := read_loop rd h in
  Translate <$> payloads t = Ok <$> executions t \/
  exists err, Translate <$> payloads t = (Ok <$> executions t) ++ [Err err] /\
              res = Some (Some (Traced err)).
Proof.
  revert h. induction rd as [|[p|err] rest IH]; intros h; simpl.
  - by left.
  - destruct (Translate p) as [[[sqls args] isDDL]|err] eqn:Htr; simpl.
    + assert (Hstep : forall h', let '(res, t) := read_loop rest h' in
                (Translate p :: (Translate <$> payloads t) =
                   Ok (sqls, args, isDDL) :: (Ok <$> executions t)) \/
                exists err, Translate p :: (Translate <$> payloads t) =
                              (Ok (sqls, args, isDDL) :: (Ok <$> executions t)) ++ [Err err] /\
                            res = Some (Some (Traced err))).
      { intros h'. specialize (IH h'). destruct (read_loop rest h') as [res t].
        rewrite Htr. destruct IH as [->|(err & -> & ->)]; [by left|].
        right. by exists err. }
      destruct (Execute _ sqls args isDDL) as [err|].
      * destruct (IgnoreDDLError err).
        -- specialize (Hstep (h ++ [EvRead (Ok p); EvExecute sqls args isDDL (Some err);
                                     EvLog LWarn "[ignore ddl error][sql]%s[args]%v[error]%v"
                                       [LSqls sqls; LArgs args; LErr err]])).
           by destruct (read_loop rest _) as [res t].
        -- simpl. rewrite Htr. by left.
      * specialize (Hstep (h ++ [EvRead (Ok p); EvExecute sqls args isDDL None])).
        by destruct (read_loop rest _) as [res t].
    + rewrite Htr. right. by exists err.
  - destruct (decide (err = EOF)); by left.
Qed.

Lemma files_loop_translations (names : list string) (ps : list string) (h : trace) :
  let '(out, t) := files_loop names ps h in
  Translate <$> payloads t = Ok <$> executions t \/
  exists err, Translate <$> payloads t = (Ok <$> executions t) ++ [Err err] /\
              out = Returned (Some (Traced err)).
Proof.
  revert ps h. induction names as [|name names IH]; intros ps h; simpl.
  { destruct (closes_reads_nothing ps) as (-> & -> & _). by left. }
  destruct (OpenFile (Join dir name)) as [rd|err]; simpl.
  - pose proof (read_loop_translations rd (h ++ [EvOpen (Join dir name) true])) as Hread.
    destruct (read_loop rd _) as [[err|] t].
    + simpl. rewrite payloads_app, executions_app.
      destruct (closes_reads_nothing (Join dir name :: ps)) as (-> & -> & _).
      rewrite !app_nil_r.
      destruct Hread as [Hread|(err' & Hread & [= ->])]; [by left|].
      right. by exists err'.
    + specialize (IH (Join dir name :: ps) (h ++ EvOpen (Join dir name) true :: t)).
      destruct (files_loop names _ _) as [out t']. simpl.
      rewrite payloads_app, executions_app, !fmap_app.
      destruct Hread as [->|(err' & _ & [=])].
      destruct IH as [->|(err' & -> & ->)]; [by left|].
      right. exists err'. by rewrite app_assoc.
  - destruct (closes_reads_nothing ps) as (-> & -> & _). by left.
Qed.

(** X10: [Start] hands to [Execute] exactly the translations of the binlogs
    it read, in the order it read them; the only binlog read and not
    executed is one whose translation failed, and then [Start] returns that
    error traced. *)
Theorem Start_executes_what_it_reads (h : trace) :
  let '(out, t) := Start h in
  Translate <$> payloads t = Ok <$> executions t \/
  exists err, Translate <$> payloads t = (Ok <$> executions t) ++ [Err err] /\
              out = Returned (Some (Traced err)).
Proof.
  unfold Restore.Start. destruct (readBinlogNames dir) as [names|err]; [|by left].
  case_bool_decide; [|by left].
  pose proof (files_loop_translations (drop (Z.to_nat (searchFileIndex names "")) names) []
                (h ++ [EvLog LDebug "index %d" [LInt (searchFileIndex names "")]])) as Hfiles.
  by destruct (files_loop _ _ _) as [out t].
Qed.

Lemma files_loop_closes (names : list string) (ps : list string) (h : trace) :
  exists body,
    (files_loop names ps h).2 = body ++ closes (reverse (opened body) ++ ps) /\
    closed body = [].
Proof.
  revert ps h. induction names as [|name names IH]; intros ps h; simpl.
  { by exists []. }
  destruct (OpenFile (Join dir name)) as [rd|err]; simpl.
  - pose proof (read_loop_opens_nothing rd (h ++ [EvOpen (Join dir name) true]))
      as (_ & Hopened & Hclosed).
    destruct (read_loop rd _) as [[err|] t]; simpl in *.
    + exists (EvOpen (Join dir name) true :: t). simpl.
      rewrite Hopened, Hclosed. by split.
    + destruct (IH (Join dir name :: ps) (h ++ EvOpen (Join dir name) true :: t))
        as (body & Hbody & Hcl).
      destruct (files_loop names _ _) as [out t']. simpl in *. subst t'.
      exists (EvOpen (Join dir name) true :: t ++ body). simpl.
      rewrite opened_app, closed_app, Hopened, Hclosed, Hcl. simpl.
      rewrite reverse_cons, <- !app_assoc. by split.
  - by exists [EvOpen (Join dir name) false].
Qed.

(** X9: the deferred closes run when [Start] ends and not before: the
    trace of [Start] is a part with no close, followed by the close of
    every file opened in that part, the last opened first. *)
Theorem Start_closes_what_it_opened (h : trace) :
  exists body,
    (Start h).2 = body ++ (EvClose <$> reverse (opened body)) /\ closed body = [].
Proof.
  unfold Restore.Start. destruct (readBinlogNames dir) as [names|err].
  - case_bool_decide.
    + destruct (files_loop_closes (drop (Z.to_nat (searchFileIndex names "")) names) []
                  (h ++ [EvLog LDebug "index %d" [LInt (searchFileIndex names "")]]))
        as (body & Hbody & Hcl).
      destruct (files_loop _ _ _) as [out t]. simpl in *. subst t.
      exists (EvLog LDebug "index %d" [LInt (searchFileIndex names "")] :: body).
      simpl. by rewrite app_nil_r.
    + by exists [EvLog LDebug "index %d" [LInt (searchFileIndex names "")]].
  - by exists [EvLog LFatal "read binlog file name error %v" [LErr err]].
Qed.

Lemma closes_read_errors (out : outcome) (tail : trace) :
  Forall (fun ev => exists p, ev = EvClose p) tail -> read_errors_handled out tail.
Proof. induction 1 as [|ev tail [p ->] _ IH]; simpl; done. Qed.

Lemma read_loop_read_errors (rd : reader) (h : trace) (out : outcome) (tail : trace) :
  let '(res, t) := read_loop rd h in
  match res with
  | Some err => out = Returned err /\ Forall (fun ev => exists p, ev = EvClose p) tail
  | None => file_ended tail /\ read_errors_handled out tail
  end ->
  read_errors_handled out (t ++ tail).
Proof.
  revert h. induction rd as [|[p|err] rest IH]; intros h; simpl.
  - done.
  - destruct (Translate p) as [[[sqls args] isDDL]|err]; simpl.
    + destruct (Execute _ sqls args isDDL) as [err|].
      * destruct (IgnoreDDLError err).
        -- specialize (IH (h ++ [EvRead (Ok p); EvExecute sqls args isDDL (Some err);
                                   EvLog LWarn "[ignore ddl error][sql]%s[args]%v[error]%v"
                                     [LSqls sqls; LArgs args; LErr err]])).
           by destruct (read_loop rest _) as [res t].
        -- simpl. intros [_ Htail]. by apply closes_read_errors.
      * specialize (IH (h ++ [EvRead (Ok p); EvExecute sqls args isDDL None])).
        by destruct (read_loop rest _) as [res t].
    + intros [_ Htail]. by apply closes_read_errors.
  - destruct (decide (err = EOF)) as [->|Hne]; simpl.
    + done.
    + rewrite decide_False by done. by intros [-> Htail].
Qed.

Lemma files_loop_read_errors (names : list string) (ps : list string) (h : trace) :
  let '(out, t) := files_loop names ps h in
  file_ended t /\ read_errors_handled out t.
Proof.
  assert (Hcloses : forall out ps', file_ended (closes ps') /\
                                    read_errors_handled out (closes ps') /\
                                    Forall (fun ev => exists p, ev = EvClose p) (closes ps')).
  { intros out ps'. assert (Hall : Forall (fun ev => exists p, ev = EvClose p) (closes ps')).
    { induction ps' as [|p ps' IHp]; simpl; constructor; [by exists p|done]. }
    split; [by destruct ps'|]. split; [by apply closes_read_errors|done]. }
  revert ps h. induction names as [|name names IH]; intros ps h; simpl.
  { destruct (Hcloses (Returned None) ps) as (H1 & H2 & _). by split. }
  destruct (OpenFile (Join dir name)) as [rd|err]; simpl.
  - pose proof (read_loop_read_errors rd (h ++ [EvOpen (Join dir name) true])) as Hread.
    destruct (read_loop rd _) as [[err|] t].
    + simpl. split; [done|]. apply Hread. split; [done|].
      by destruct (Hcloses (Returned err) (Join dir name :: ps)) as (_ & _ & H3).
    + specialize (IH (Join dir name :: ps) (h ++ EvOpen (Join dir name) true :: t)).
      destruct (files_loop names _ _) as [out t']. simpl. split; [done|].
      by apply Hread.
  - split; [done|]. simpl.
    match goal with |- read_errors_handled ?o _ => destruct (Hcloses o ps) as (_ & H2 & _) end.
    done.
Qed.

(** X11: in every run of [Start], a read that returns [io.EOF] ends its
    file: the next thing is the opening of the next file or the deferred
    closes; a read that fails otherwise ends [Start], which returns the
    decode error made from it. *)
Theorem Start_read_errors (h : trace) :
  let '(out, t) := Start h in read_errors_handled out t.
Proof.
  unfold Restore.Start. destruct (readBinlogNames dir) as [names|err]; [|done].
  case_bool_decide; [|done].
  pose proof (files_loop_read_errors (drop (Z.to_nat (searchFileIndex names "")) names) []
                (h ++ [EvLog LDebug "index %d" [LInt (searchFileIndex names "")]])) as Hfiles.
  destruct (files_loop _ _ _) as [out t]. by destruct Hfiles.
Qed.

(** From inside the inner loop [Start] returns an error, never nil. *)
Lemma read_loop_returns_error (rd : reader) (h : trace) :
  (read_loop rd h).1 <> Some None.
Proof.
  revert h. induction rd as [|[p|err] rest IH]; intros h; simpl; [done| |].
  - destruct (Translate p) as [[[sqls args] isDDL]|err]; [|done].
    destruct (Execute _ sqls args isDDL) as [err|].
    + destruct (IgnoreDDLError err); [|done].
      specialize (IH (h ++ [EvRead (Ok p); EvExecute sqls args isDDL (Some err);
                             EvLog LWarn "[ignore ddl error][sql]%s[args]%v[error]%v"
                               [LSqls sqls; LArgs args; LErr err]])).
      by destruct (read_loop rest _).
    + specialize (IH (h ++ [EvRead (Ok p); EvExecute sqls args isDDL None])).
      by destruct (read_loop rest _).
  - by destruct (decide (err = EOF)).
Qed.

Lemma files_loop_opens (names : list string) (ps : list string) (h : trace) :
  let '(out, t) := files_loop names ps h in
  opens t `prefix_of` (Join dir <$> names) /\
  (out = Returned None -> opens t = Join dir <$> names /\ opened t = opens t).
Proof.
  revert ps h. induction names as [|name names IH]; intros ps h; simpl.
  { destruct (closes_reads_nothing ps) as (_ & _ & -> & -> & _). done. }
  destruct (OpenFile (Join dir name)) as [rd|err]; simpl.
  - pose proof (read_loop_opens_nothing rd (h ++ [EvOpen (Join dir name) true]))
      as (Hopens & Hopened & _).
    pose proof (read_loop_returns_error rd (h ++ [EvOpen (Join dir name) true])) as Hret.
    destruct (read_loop rd _) as [[err|] t]; simpl in *.
    + rewrite opens_app, opened_app, Hopens, Hopened.
      destruct (closes_reads_nothing (Join dir name :: ps)) as (_ & _ & -> & -> & _).
      simpl. split; [apply prefix_cons, prefix_nil|].
      by intros [= ->].
    + specialize (IH (Join dir name :: ps) (h ++ EvOpen (Join dir name) true :: t)).
      destruct (files_loop names _ _) as [out t']. simpl.
      rewrite opens_app, opened_app, Hopens, Hopened. simpl.
      destruct IH as [Hpre Hall]. split; [by apply prefix_cons|].
      intros Hout. destruct (Hall Hout) as [-> ->]. done.
  - destruct (closes_reads_nothing ps) as (_ & _ & -> & -> & _).
    split; [apply prefix_cons, prefix_nil|done].
Qed.

(** X12: [Start] opens the files in the order of their names, from the
    index [searchFileIndex] gives: the paths it tries to open are the first
    ones of that list, and all of them, each opened, when it returns nil.
    When the names cannot be read the process exits, and when the index is
    outside the names [Start] panics, in both cases before any file is
    opened. *)
Theorem Start_files_in_order (h : trace) :
  let '(out, t) := Start h in
  match readBinlogNames dir with
  | Err _ => out = Exited /\ opens t = []
  | Ok names =>
      let index := searchFileIndex names "" in
      if bool_decide (0 <= index <= Z.of_nat (length names)) then
        opens t `prefix_of` (Join dir <$> drop (Z.to_nat index) names) /\
        (out = Returned None ->
         opens t = Join dir <$> drop (Z.to_nat index) names /\ opened t = opens t)
      else out = Panicked /\ opens t = []
  end.
Proof.
  unfold Restore.Start. destruct (readBinlogNames dir) as [names|err]; [|done].
  cbv zeta. case_bool_decide; [|done].
  pose proof (files_loop_opens (drop (Z.to_nat (searchFileIndex names "")) names) []
                (h ++ [EvLog LDebug "index %d" [LInt (searchFileIndex names "")]])) as Hfiles.
  by destruct (files_loop _ _ _) as [out t].
Qed.

End StartFacts.

End RestoreFacts.

(** ** Runs on the small table *)

Module Runs.
Import Errors Loader Demo LoaderFacts.

Example merge_scenario :
  mergeByPrimaryKey scenario =
  Ok (bucketsOf [withTp (update 1 "a" "b") UpdateDMLType; insert 2 "c"]) /\
  bucketsOf [withTp (update 1 "a" "b") UpdateDMLType; insert 2 "c"] !! DeleteDMLType = None.
Proof. split; by vm_compute. Qed.

Example merge_insert_then_delete :
  mergeByPrimaryKey [insert 5 "x"; delete 5 "x"] = Ok (bucketsOf [delete 5 "x"]) /\
  bucketsOf [delete 5 "x"] !! InsertDMLType = None /\
  bucketsOf [delete 5 "x"] !! UpdateDMLType = None.
Proof. repeat split; by vm_compute. Qed.

(** The retry scenario of the spec: two failures, then success, with
    [retryNum = 3]: nil, exactly two sleeps, three transactions. *)
Example retry_third_attempt_succeeds :
  let '(res, t) :=
    execTableBatchRetry sql quoteSchema buildColumnList holderString splitDMLs
      (flaky 2 []) exe [insert 1 "a"] 3 7 [] in
  res = None /\ sleeps t = [7; 7] /\ begins t = [Ok 0; Ok 1; Ok 2]%nat /\
  rollbacks t = [0; 1]%nat /\ commits t = [(2%nat, None)].
Proof. by vm_compute. Qed.

(** When every attempt fails, the last error comes back traced: once by
    [bulkReplace], once by the goroutine, once by [splitExecDML], once by
    [execTableBatch] and once by [execTableBatchRetry]. *)
Example retry_exhausted :
  let '(res, t) :=
    execTableBatchRetry sql quoteSchema buildColumnList holderString splitDMLs
      (flaky 9 []) exe [insert 1 "a"] 3 7 [] in
  res = Some (Traced (Traced (Traced (Traced (Traced (Foreign "boom")))))) /\
  sleeps t = [7; 7] /\ commits t = [].
Proof. by vm_compute. Qed.

(** [bulkDelete] on the empty slice, against a database that accepts it. *)
Example bulkDelete_empty_run :
  run_act (flaky 0 []) (bulkDelete sql exe []) [] =
  (None, [EvBegin (Ok 0%nat); EvExec 0%nat "" [] None; EvCommit 0%nat None]).
Proof. by vm_compute. Qed.

(** With the histogram, [tx.exec] and [tx.commit] each leave one
    observation. *)
Example bulkDelete_observed_run :
  run_act (flaky 0 []) (bulkDelete sql (withQueryHistogramVec exe true) [delete 1 "a"]) [] =
  (None, [EvBegin (Ok 0%nat);
          EvExec 0%nat "DELETE FROM t WHERE key = ?;" [VInt 1] None; EvObserve "exec";
          EvCommit 0%nat None; EvObserve "commit"]).
Proof. by vm_compute. Qed.

(** Safe mode on an update, an insert and a delete. *)
Example singleExec_safe_mode_run :
  execs (run_act (flaky 0 [])
           (singleExec sql deleteSQL replaceSQL exe
              [update 1 "a" "b"; insert 2 "c"; delete 3 "d"] true) []).2 =
  succeeded 0%nat <$>
    [deleteSQL (update 1 "a" "b"); replaceSQL (update 1 "a" "b");
     replaceSQL (insert 2 "c"); sql (delete 3 "d")].
Proof. by vm_compute. Qed.

(** Three deletes in sub-batches of two, every statement refused.  When the
    goroutines run one after the other the first sub-batch's error comes
    back; when the scheduler lets the second goroutine run first, the
    second's does. *)
Example first_error_in_split_order :
  let '(res, t) :=
    splitExecDML splitDMLs (refusing []) exe
      [delete 1 "a"; delete 2 "b"; delete 3 "c"] (bulkDelete sql exe) [] in
  res = Some (Traced (Traced (Traced
          (Foreign "DELETE FROM t WHERE key = ?;DELETE FROM t WHERE key = ?;")))) /\
  (dones t).*1 = [0; 1]%nat.
Proof. by vm_compute. Qed.

Example first_error_in_return_order :
  let '(res, t) :=
    splitExecDML splitDMLs (refusing [1; 1; 1; 1; 1]%nat) exe
      [delete 1 "a"; delete 2 "b"; delete 3 "c"] (bulkDelete sql exe) [] in
  res = Some (Traced (Traced (Traced (Foreign "DELETE FROM t WHERE key = ?;")))) /\
  (dones t).*1 = [1; 0]%nat.
Proof. by vm_compute. Qed.

(** Witness of [mergeByPrimaryKey_one_record_per_key]: the first scenario. *)
Lemma merge_one_record_per_key_witness :
  Forall (fun d => is_Some (keyOf d)) scenario /\
  exists (m : gmap key DML) (types : gmap DMLType (list DML)),
    mergeByPrimaryKey scenario = Ok types /\
    (forall tp, default [] (types !! tp) = (entries m tp).*2 /\
                (types !! tp = None <-> entries m tp = [])) /\
    NoDup ((entries m DeleteDMLType).*1 ++ (entries m InsertDMLType).*1 ++
           (entries m UpdateDMLType).*1) /\
    (forall k r tp, (k, r) ∈ entries m tp ->
       exists d, last_change k scenario = Some d /\ r = withTp d tp /\
                 (Tp d = DeleteDMLType -> tp = DeleteDMLType) /\
                 (Tp d <> DeleteDMLType -> tp = InsertDMLType \/ tp = UpdateDMLType)) /\
    (forall k d, last_change k scenario = Some d ->
       exists r, (k, r) ∈ entries m (Tp r)).
Proof.
  assert (Hkeys : Forall (fun d => is_Some (keyOf d)) scenario).
  { repeat constructor; by eexists. }
  split; [exact Hkeys|].
  exact (mergeByPrimaryKey_one_record_per_key scenario Hkeys).
Defined.

(** Witness of [retry_discipline]: three attempts allowed, the first two fail. *)
Lemma retry_discipline_witness :
  1 <= 3 /\
  (let '(res, t) :=
     execTableBatchRetry sql quoteSchema buildColumnList holderString splitDMLs
       (flaky 2 []) exe [insert 1 "a"] 3 7 [] in
   retried
     (execTableBatch sql quoteSchema buildColumnList holderString splitDMLs
        (flaky 2 []) exe [insert 1 "a"]) 7 3 [] res t) /\
  (let '(res, t) :=
     singleExecRetry sql deleteSQL replaceSQL splitDMLs (flaky 2 []) exe
       [update 1 "a" "b"; insert 2 "c"; delete 3 "d"] true 3 7 [] in
   groups_run
     (fun g => M_act (flaky 2 []) (singleExec sql deleteSQL replaceSQL exe g true))
     7 (Z.to_nat 3)
     (splitDMLs [update 1 "a" "b"; insert 2 "c"; delete 3 "d"] (batchSize exe)) [] t res).
Proof.
  split; [lia|].
  apply (retry_discipline sql deleteSQL replaceSQL quoteSchema buildColumnList holderString
           splitDMLs (flaky 2 []) exe [insert 1 "a"]
           [update 1 "a" "b"; insert 2 "c"; delete 3 "d"] true 3 7 []).
  lia.
Defined.

(** Witness of [execTableBatchRetry_nonpositive]: a count of zero. *)
Lemma execTableBatchRetry_nonpositive_witness :
  0 <= 0 /\
  execTableBatchRetry sql quoteSchema buildColumnList holderString splitDMLs
    (flaky 0 []) exe [insert 1 "a"] 0 7 [] = (None, []).
Proof.
  split; [lia|].
  apply (execTableBatchRetry_nonpositive sql quoteSchema buildColumnList holderString
           splitDMLs (flaky 0 []) exe [insert 1 "a"] 0 7 []).
  lia.
Defined.

(** C8 as stated fails: the error value that comes back does not carry the
    statement.  Two deletes with different statements, each failing with the
    database's "boom", return the very same value, [errors.Trace] of "boom";
    so no reading of the returned error gives back the failing statement. *)
Lemma exec_error_value_has_no_statement :
  let w := flaky 1 [] in
  let r1 := run_act w (bulkDelete sql exe [delete 1 "a"]) [] in
  let r2 := run_act w (bulkDelete sql exe [delete 2 "b"]) [] in
  execs r1.2 = [(0%nat, ("DELETE FROM t WHERE key = ?;", [VInt 1]), Some (Foreign "boom"))] /\
  execs r2.2 = [(0%nat, ("DELETE FROM t WHERE key = ?;", [VInt 2]), Some (Foreign "boom"))] /\
  r1.1 = Some (Traced (Foreign "boom")) /\
  r2.1 = Some (Traced (Foreign "boom")) /\
  ~ exists stmt_of : error -> option stmt,
      forall deletes tx q args err,
        EvExec tx q args (Some err) ∈ (run_act w (bulkDelete sql exe deletes) []).2 ->
        exists err', (run_act w (bulkDelete sql exe deletes) []).1 = Some err' /\
                     stmt_of err' = Some (q, args).
Proof.
  cbv zeta. split; [by vm_compute|]. split; [by vm_compute|].
  split; [by vm_compute|]. split; [by vm_compute|].
  intros [stmt_of H].
  destruct (H [delete 1 "a"] 0%nat "DELETE FROM t WHERE key = ?;" [VInt 1] (Foreign "boom"))
    as (e1 & He1 & Hs1).
  { vm_compute. set_solver. }
  destruct (H [delete 2 "b"] 0%nat "DELETE FROM t WHERE key = ?;" [VInt 2] (Foreign "boom"))
    as (e2 & He2 & Hs2).
  { vm_compute. set_solver. }
  vm_compute in He1, He2. congruence.
Qed.

(** Records of two tables, grouped: each table keeps its records in the
    order they came. *)
Example groupByTable_two_tables :
  groupByTable quoteSchema [insert 1 "a"; insertOther 7 "x"; delete 1 "a"] =
  Some {["test.t" := [insert 1 "a"; delete 1 "a"]; "test.u" := [insertOther 7 "x"]]}.
Proof. by vm_compute. Qed.

(** With a count of zero [singleExecRetry] reports success and applies
    nothing. *)
Lemma singleExecRetry_nonpositive_witness :
  0 <= 0 /\
  singleExecRetry sql deleteSQL replaceSQL splitDMLs (flaky 0 []) exe
    [update 1 "a" "b"; insert 2 "c"] true 0 7 [] = (None, []).
Proof.
  split; [lia|].
  apply (singleExecRetry_nonpositive sql deleteSQL replaceSQL splitDMLs (flaky 0 []) exe
           [update 1 "a" "b"; insert 2 "c"] true 0 7 []).
  lia.
Defined.

(** A record without a key: the merge fails, and the three attempts
    allowed cost two sleeps and no call to the database. *)
Lemma merge_error_is_retried_witness :
  [keyless] <> [] /\
  mergeByPrimaryKey [keyless] = Err keyResolutionError /\
  1 <= 3 /\
  execTableBatchRetry sql quoteSchema buildColumnList holderString splitDMLs
    (flaky 0 []) exe [keyless] 3 7 [] =
  (Some (Traced (Traced keyResolutionError)), replicate (Z.to_nat 3 - 1) (EvSleep 7)).
Proof.
  assert (Hne : [keyless] <> []) by done.
  assert (Hmerge : mergeByPrimaryKey [keyless] = Err keyResolutionError) by reflexivity.
  assert (Hn : 1 <= 3) by lia.
  split; [exact Hne|]. split; [exact Hmerge|]. split; [exact Hn|].
  exact (merge_error_is_retried sql quoteSchema buildColumnList holderString splitDMLs
           (flaky 0 []) exe [keyless] keyResolutionError 3 7 [] Hne Hmerge Hn).
Defined.

End Runs.

(** ** Runs on the two binlog files *)

Module RestoreRuns.
Import Errors Restore RestoreDemo.

(** An error the classifier ignores: a warning, and the reading goes on to
    the end of the second file. *)
Example ignorable_error_continues :
  run (Foreign "table already exists") =
  (Returned None,
   [EvLog LDebug "index %d" [LInt 0];
    EvOpen "data/binlog-0" true;
    EvRead (Ok "a"); EvExecute ["a"] [[]] true None;
    EvRead (Ok "b"); EvExecute ["b"] [[]] true (Some (Foreign "table already exists"));
    EvLog LWarn "[ignore ddl error][sql]%s[args]%v[error]%v"
      [LSqls ["b"]; LArgs [[]]; LErr (Foreign "table already exists")];
    EvRead (Err EOF);
    EvOpen "data/binlog-1" true;
    EvRead (Ok "c"); EvExecute ["c"] [[]] true None;
    EvRead (Err EOF);
    EvClose "data/binlog-1"; EvClose "data/binlog-0"]).
Proof. by vm_compute. Qed.

(** Any other error: [Start] returns it traced, and nothing more is read. *)
Example other_error_stops :
  run (Foreign "connection lost") =
  (Returned (Some (Traced (Foreign "connection lost"))),
   [EvLog LDebug "index %d" [LInt 0];
    EvOpen "data/binlog-0" true;
    EvRead (Ok "a"); EvExecute ["a"] [[]] true None;
    EvRead (Ok "b"); EvExecute ["b"] [[]] true (Some (Foreign "connection lost"));
    EvClose "data/binlog-0"]).
Proof. by vm_compute. Qed.

End RestoreRuns.
